(** * HTM spatial pooler (htm.py): a shallow embedding and its properties

    The program is a single Python module: three small classes ([Synapse],
    [Cell], [Column]) and three module-level procedures ([findOverlap],
    [findActiveColumns], [learnAndInhibit]) that mutate the objects they are
    handed and one module-level dictionary ([ACTIVE_COLUMNS]).

    Modelling decisions.
    - Numbers.  The module's arithmetic works on whatever numeric objects it
      is given (its own literals are Python floats).  The embedding is
      written once over a small numeric interface [PyNum] and instantiated
      twice: with the kernel's binary64 floats, which is what CPython
      computes with, and with the rationals [Q], an exact ordered field.
      Concrete runs are evaluated on binary64; order-theoretic facts are
      proved for every instance that satisfies [OrderLaws] (both instances
      do, binary64 away from NaN) and [ArithLaws] (both do: for binary64
      through the specification of its rounded sum and difference).
    - Objects.  A region's columns live in a list; a reference to a column is
      its position in that list.  A column owns its synapses.
    - Exceptions.  A procedure that can raise returns the state it leaves
      behind together with the exception, if any.
    - Methods.  A call of a method the class does not define raises
      [AttributeError], as [x.isConnected()] at line 80 does.  What the
      module calls and defines nowhere ([getSourcetInput], [getSynapses],
      [kthScore], [getNeighbors]) is modelled from the specification, and
      said to be where it is defined. *)

From Stdlib Require Import ZArith QArith Lqa Floats List Permutation Sorted Lia.
From stdpp Require Import base list gmap.

Set Warnings "-inexact-float".

(** ** The numeric interface *)

Class PyNum (T : Type) := {
  lit_0_0 : T;                (* the literal 0.0 (and the integer 0) *)
  lit_1_0 : T;                (* the literal 1.0 (and the integer 1) *)
  lit_0_1 : T;                (* the literal 0.1 *)
  lit_0_05 : T;               (* the literal 0.05 *)
  lit_0_2 : T;                (* the literal 0.2 *)
  add : T → T → T;            (* x + y *)
  sub : T → T → T;            (* x - y *)
  mul : T → T → T;            (* x * y *)
  ltb : T → T → bool;         (* x < y *)
  leb : T → T → bool;         (* x <= y *)
}.

(** [x > y] and [x >= y] are the mirrored comparisons. *)
Definition gtb {T} `{PyNum T} (x y : T) : bool := ltb y x.
Definition geb {T} `{PyNum T} (x y : T) : bool := leb y x.

(** binary64, as CPython's [float]. *)
#[export] Instance float_PyNum : PyNum float := {|
  lit_0_0 := 0%float;
  lit_1_0 := 1%float;
  lit_0_1 := 0.1%float;
  lit_0_05 := 0.05%float;
  lit_0_2 := 0.2%float;
  add := PrimFloat.add;
  sub := PrimFloat.sub;
  mul := PrimFloat.mul;
  ltb := PrimFloat.ltb;
  leb := PrimFloat.leb;
|}.

(** Exact rationals. *)
#[export] Instance Q_PyNum : PyNum Q := {|
  lit_0_0 := 0%Q;
  lit_1_0 := 1%Q;
  lit_0_1 := (1 # 10)%Q;
  lit_0_05 := (1 # 20)%Q;
  lit_0_2 := (1 # 5)%Q;
  add := Qplus;
  sub := Qminus;
  mul := Qmult;
  ltb := fun x y => negb (Qle_bool y x);
  leb := Qle_bool;
|}.

(** The comparisons form a total preorder on the values that are numbers
    ([is_number] is false on NaN only). *)
Class OrderLaws (T : Type) `{PyNum T} := {
  is_number : T → bool;
  leb_total x y :
    is_number x = true → is_number y = true →
    leb x y = true ∨ leb y x = true;
  leb_trans x y z : leb x y = true → leb y z = true → leb x z = true;
  ltb_leb x y :
    is_number x = true → is_number y = true → ltb x y = negb (leb y x);
  ltb_number x y : ltb x y = true → is_number x = true ∧ is_number y = true;
  leb_number x y : leb x y = true → is_number x = true ∧ is_number y = true;
  number_0_0 : is_number lit_0_0 = true;
  number_1_0 : is_number lit_1_0 = true;
}.

(** What the clamping arguments need from the arithmetic: a sum of two
    values at or above 0.0 is at or above 0.0, and taking such a value from
    one in [0.0, 1.0] leaves a value at or below 1.0. *)
Class ArithLaws (T : Type) `{OrderLaws T} := {
  leb_0_1 : leb lit_0_0 lit_1_0 = true;
  add_nonneg x d :
    leb lit_0_0 x = true → leb lit_0_0 d = true → leb lit_0_0 (add x d) = true;
  sub_le_1 x d :
    leb lit_0_0 x = true → leb x lit_1_0 = true → leb lit_0_0 d = true →
    leb (sub x d) lit_1_0 = true;
  leb_0_inc : leb lit_0_0 lit_0_1 = true;
  leb_0_dec : leb lit_0_0 lit_0_05 = true;
}.

(** ** Exceptions *)

Inductive PyError :=
| AttributeError        (* a method the object does not have *)
| OutOfRangeError       (* the spec's error for a source index outside the input *)
| KthScoreUndefined.    (* [kthScore] asked for a rank it is not defined for *)

Inductive outcome (A : Type) :=
| Return (a : A)
| Raise (e : PyError).
Arguments Return {A} a.
Arguments Raise {A} e.

(** Python's [map(f, l)] for a function that may raise: [f] is applied to
    the elements in order, and the first exception ends the call. *)
Fixpoint py_map {A B : Type} (f : A → outcome B) (l : list A)
  : outcome (list B) :=
  match l with
  | [] => Return []
  | x :: l' =>
      match f x with
      | Raise e => Raise e
      | Return y =>
          match py_map f l' with
          | Raise e => Raise e
          | Return ys => Return (y :: ys)
          end
      end
  end.

(** ** The module, over any numeric instance *)

Section HTM.
Context {T : Type} `{PyNum T}.

(** Module globals (lines 9-13). *)
Definition PERMANENCE_INC : T := lit_0_1.
Definition PERMANENCE_DEC : T := lit_0_05.
Definition CONNECTED_PERM : T := lit_0_2.

(** *** class Synapse *)

Record Synapse := mkSynapse {
  isactive : bool;
  inputIndex : Z;
  permanence : T;
}.

(** [Synapse.__init__(self, inputIndex)]. *)
Definition Synapse_init (inputIndex : Z) : Synapse :=
  {| isactive := false; inputIndex := inputIndex; permanence := lit_0_0 |}.

(** The body of [isConnnected] reads the global at call time;
    [isConnnected_with] takes the global's value as an argument. *)
Definition isConnnected_with (connected_perm : T) (s : Synapse) : bool :=
  gtb (permanence s) connected_perm.

Definition isConnnected (s : Synapse) : bool :=
  isConnnected_with CONNECTED_PERM s.

(** [setPermanence(self, perm = 0.0)]. *)
Definition setPermanence (s : Synapse) (perm : T) : Synapse :=
  {| isactive := isactive s; inputIndex := inputIndex s; permanence := perm |}.

Definition getPermanence (s : Synapse) : T := permanence s.

Definition isActive (s : Synapse) : bool := isactive s.

(** [setActive(self, active = False)]. *)
Definition setActive (s : Synapse) (active : bool) : Synapse :=
  {| isactive := active; inputIndex := inputIndex s;
     permanence := permanence s |}.

(** [incPerm(self, inc = PERMANENCE_INC)]. *)
Definition incPerm (s : Synapse) (inc : T) : Synapse :=
  let p := add (permanence s) inc in
  setPermanence s (if gtb p lit_1_0 then lit_1_0 else p).

(** [decPerm(self, dec = PERMANENCE_DEC)]. *)
Definition decPerm (s : Synapse) (dec : T) : Synapse :=
  let p := sub (permanence s) dec in
  setPermanence s (if ltb p lit_0_0 then lit_0_0 else p).

Definition getIndex (s : Synapse) : Z := inputIndex s.

(** *** class Cell *)

Record Cell := mkCell { cell_synapses : list Synapse }.

Definition Cell_init : Cell := {| cell_synapses := [] |}.

(** *** class Column *)

Record Column := mkColumn {
  boost : T;
  overlap : T;
  cells : list Cell;
  synapses : list Synapse;
}.

(** [Column.__init__(self)]: four cells, no synapses. *)
Definition Column_init : Column :=
  {| boost := lit_1_0; overlap := lit_0_0;
     cells := replicate 4 Cell_init; synapses := [] |}.

(** [setBoost(self, boost = 1.0)]. *)
Definition setBoost (c : Column) (b : T) : Column :=
  {| boost := b; overlap := overlap c; cells := cells c;
     synapses := synapses c |}.

(** [setOverlap(self, overlap = 0.0)]. *)
Definition setOverlap (c : Column) (o : T) : Column :=
  {| boost := boost c; overlap := o; cells := cells c;
     synapses := synapses c |}.

Definition getOverlap (c : Column) : T := overlap c.

Definition boostOverlap (c : Column) : Column :=
  setOverlap c (mul (overlap c) (boost c)).

(** *** The objects a loop may meet *)

Inductive PyObj := PyBool (b : bool) | PySynapse (s : Synapse).

(** The method call [x.isConnected()] of line 80.  Class [Synapse] defines
    [isConnnected] and no attribute [isConnected]: the attribute lookup
    fails, whatever the synapse. *)
Definition call_isConnected (x : Synapse) : outcome bool :=
  Raise AttributeError.

(** [getConnectedSynapses(self)]: [map] of a lambda that calls
    [x.isConnected()] on each synapse, so what it would collect are the
    calls' results and not the synapses.  ([map] is taken as the one that
    builds the list; with a lazy [map] the same exception surfaces at the
    first step of the caller's loop.) *)
Definition getConnectedSynapses (c : Column) : outcome (list PyObj) :=
  py_map (fun x => match call_isConnected x with
                   | Return b => Return (PyBool b)
                   | Raise e => Raise e
                   end)
         (synapses c).

(** Modelled from the spec: [connectedSynapses()] (section 4.2), in the
    spec's words: the proximal synapses filtered by [isConnected()]. *)
Definition connectedSynapses_spec (c : Column) : outcome (list PyObj) :=
  Return (map PySynapse (List.filter isConnnected (synapses c))).

(** *** Reading the input *)

(** Modelled from the spec: [Synapse.getSourceInput], which [findOverlap]
    calls (as [getSourcetInput]) and the module never defines.  Section 4.1:
    it returns the input vector's bit at [sourceIndex] and fails with
    [OutOfRangeError] when the index is outside the vector. *)
Definition getSourceInput (s : Synapse) (inputVector : list bool)
  : outcome T :=
  if Z.ltb (getIndex s) 0%Z then Raise OutOfRangeError
  else match inputVector !! Z.to_nat (getIndex s) with
       | Some b => Return (if b : bool then lit_1_0 else lit_0_0)
       | None => Raise OutOfRangeError
       end.

(** The encoder: the input vector of each timestep. *)
Variable inputVector : Z → list bool.

(** The method call [s.getSourcetInput(t)] on whatever object [s] is. *)
Definition call_getSourcetInput (s : PyObj) (t : Z) : outcome T :=
  match s with
  | PySynapse x => getSourceInput x (inputVector t)
  | PyBool _ => Raise AttributeError
  end.

(** *** findOverlap (lines 83-93) *)

(** The inner loop, [for s in ...: c.setOverlap(c.getOverlap() + ...)];
    an exception leaves the column as the loop had it. *)
Fixpoint addSourceInputs (objs : list PyObj) (t : Z) (c : Column)
  : Column * option PyError :=
  match objs with
  | [] => (c, None)
  | s :: rest =>
      match call_getSourcetInput s t with
      | Return x => addSourceInputs rest t (setOverlap c (add (getOverlap c) x))
      | Raise e => (c, Some e)
      end
  end.

(** One iteration of the outer loop; [connected] is the callee that yields
    the objects to iterate over, or raises. *)
Definition overlapOfColumn (connected : Column → outcome (list PyObj))
    (t : Z) (minOverlap : T) (c : Column) : Column * option PyError :=
  let c0 := setOverlap c lit_0_0 in
  match connected c0 with
  | Raise e => (c0, Some e)
  | Return objs =>
      match addSourceInputs objs t c0 with
      | (c1, Some e) => (c1, Some e)
      | (c1, None) =>
          (if ltb (getOverlap c1) minOverlap then setOverlap c1 lit_0_0
           else boostOverlap c1, None)
      end
  end.

(** The outer loop: columns are updated in place, in order, and the first
    exception ends the call. *)
Fixpoint findOverlap_with (connected : Column → outcome (list PyObj))
    (columns : list Column) (t : Z) (minOverlap : T)
  : list Column * option PyError :=
  match columns with
  | [] => ([], None)
  | c :: rest =>
      match overlapOfColumn connected t minOverlap c with
      | (c', Some e) => (c' :: rest, Some e)
      | (c', None) =>
          let (rest', r) := findOverlap_with connected rest t minOverlap in
          (c' :: rest', r)
      end
  end.

(** [findOverlap(columns, t, minOverlap)] as the module has it. *)
Definition findOverlap (columns : list Column) (t : Z) (minOverlap : T)
  : list Column * option PyError :=
  findOverlap_with getConnectedSynapses columns t minOverlap.

(** The raw overlap of the claims: the sum of the source bits of the
    connected synapses (each bit is 0 or 1, so this is their count). *)
Fixpoint sumBits (bits : list bool) (acc : T) : T :=
  match bits with
  | [] => acc
  | b :: rest => sumBits rest (add acc (if b then lit_1_0 else lit_0_0))
  end.

(** *** Local inhibition *)

(** Python's [enumerate], from a start index. *)
Fixpoint enumerate_from {A} (n : nat) (l : list A) : list (nat * A) :=
  match l with
  | [] => []
  | x :: l' => (n, x) :: enumerate_from (S n) l'
  end.

(** The region's topology: [adjacent i j] when column [j] lies within the
    inhibition radius of column [i]. *)
Variable adjacent : nat → nat → bool.

Definition inNeighborhood (i : nat) (jc : nat * Column) : bool :=
  (fst jc =? i) || adjacent i (fst jc).

(** Modelled from the spec: [getNeighbors], which [findActiveColumns] calls
    and the module never defines.  Section 4.4, step 1: the neighbours of
    the column within the inhibition radius, together with the column
    itself.  The region is passed explicitly. *)
Definition getNeighbors (columns : list Column) (i : nat) : list Column :=
  map snd (List.filter (inNeighborhood i) (enumerate_from 0 columns)).

(** Sorting in descending order, by insertion. *)
Fixpoint insert_desc (x : T) (l : list T) : list T :=
  match l with
  | [] => [x]
  | y :: l' => if leb y x then x :: y :: l' else y :: insert_desc x l'
  end.

Fixpoint sort_desc (l : list T) : list T :=
  match l with
  | [] => []
  | x :: l' => insert_desc x (sort_desc l')
  end.

(** Modelled from the spec: [kthScore], which [findActiveColumns] calls and
    the module never defines.  Sections 4.4 and 9: the k-th largest overlap
    (1-indexed) among the given columns, defined for [1 <= k <= length];
    [desiredLocalActivity] is taken as the count it stands for. *)
Definition kthScore (neighbors : list Column) (desiredLocalActivity : nat)
  : option T :=
  match desiredLocalActivity with
  | O => None
  | S j => sort_desc (map getOverlap neighbors) !! j
  end.

(** The loop of [findActiveColumns] over the columns and their positions;
    the result is the list [activeColumns] of references. *)
Fixpoint selectColumns (columns : list Column) (desiredLocalActivity : nat)
    (todo : list (nat * Column)) : outcome (list nat) :=
  match todo with
  | [] => Return []
  | (i, c) :: rest =>
      if negb (gtb (getOverlap c) lit_0_0)
      then selectColumns columns desiredLocalActivity rest
      else
        match kthScore (getNeighbors columns i) desiredLocalActivity with
        | None => Raise KthScoreUndefined
        | Some minLocalActivity =>
            match selectColumns columns desiredLocalActivity rest with
            | Raise e => Raise e
            | Return act =>
                Return (if geb (getOverlap c) minLocalActivity
                        then i :: act else act)
            end
        end
  end.

(** [findActiveColumns(columns, t, desiredLocalActivity = 5.0)]; the global
    dictionary [ACTIVE_COLUMNS] is threaded through. *)
Definition findActiveColumns (columns : list Column) (t : Z)
    (desiredLocalActivity : nat) (ACTIVE_COLUMNS : gmap Z (list nat))
  : gmap Z (list nat) * option PyError :=
  match selectColumns columns desiredLocalActivity (enumerate_from 0 columns) with
  | Return activeColumns => (<[t := activeColumns]> ACTIVE_COLUMNS, None)
  | Raise e => (ACTIVE_COLUMNS, Some e)
  end.

(** *** Learning (lines 112-118) *)

(** Modelled from the spec: [Column.getSynapses], which [learnAndInhibit]
    calls and the class never defines.  Section 4.5: the proximal synapses
    that determined the column's overlap. *)
Definition getSynapses (c : Column) : list Synapse := synapses c.

(** The body of the inner loop, with the default arguments. *)
Definition learnSynapse (s : Synapse) : Synapse :=
  if isActive s then incPerm s PERMANENCE_INC else decPerm s PERMANENCE_DEC.

(** The inner loop: every synapse of the column is updated in place. *)
Definition learnColumn (c : Column) : Column :=
  {| boost := boost c; overlap := overlap c; cells := cells c;
     synapses := map learnSynapse (getSynapses c) |}.

(** [learnAndInhibit(activeColumns, t)]: [activeColumns] holds references
    into the region. *)
Definition learnAndInhibit (columns : list Column) (activeColumns : list nat)
    (t : Z) : list Column :=
  foldl (fun cols i => alter learnColumn i cols) columns activeColumns.

End HTM.

Arguments Synapse T : clear implicits.
Arguments Cell T : clear implicits.
Arguments Column T : clear implicits.
Arguments PyObj T : clear implicits.

(** ** Notions used in the statements *)

Section Notions.
Context {T : Type} `{OrderLaws T}.

(** How many entries of [l] lie strictly above [x], and how many at or
    above it. *)
Definition count_gt (x : T) (l : list T) : nat :=
  length (List.filter (fun y => gtb y x) l).
Definition count_ge (x : T) (l : list T) : nat :=
  length (List.filter (fun y => geb y x) l).

(** Descending order. *)
Fixpoint descending (l : list T) : Prop :=
  match l with
  | [] => True
  | x :: l' => Forall (fun y => leb y x = true) l' ∧ descending l'
  end.

Definition numbers (l : list T) : Prop :=
  Forall (fun y => is_number y = true) l.

(** The decision [findActiveColumns] takes for the column at position [i]. *)
Definition selected (adjacent : nat → nat → bool)
    (columns : list (Column T)) (k : nat) (ic : nat * Column T) : bool :=
  gtb (getOverlap (snd ic)) lit_0_0 &&
  match kthScore (getNeighbors adjacent columns (fst ic)) k with
  | Some m => geb (getOverlap (snd ic)) m
  | None => false
  end.

(** The closed interval [0.0, 1.0]. *)
Definition in_unit_interval (p : T) : Prop :=
  leb lit_0_0 p = true ∧ leb p lit_1_0 = true.

End Notions.

(** Numbers among the specification-level floats. *)
Definition sf_number (x : spec_float) : bool :=
  match x with S754_nan => false | _ => true end.

(** A binary64 value is a number when it equals itself. *)
Definition float_is_number (x : float) : bool := PrimFloat.eqb x x.

(** ** Example data (binary64) *)

(** Scenario 1, and columns with an unconnected synapse. *)
Definition example_input (t : Z) : list bool := [true].
Definition scenario1_column : Column float :=
  mkColumn 1%float 0%float (replicate 4 Cell_init)
    [mkSynapse false 0%Z 0.5%float].
Definition two_synapse_column : Column float :=
  mkColumn 1%float 0%float (replicate 4 Cell_init)
    [mkSynapse false 0%Z 0.5%float; Synapse_init 0%Z].
Definition fresh_synapse_column : Column float :=
  mkColumn 1%float 0%float (replicate 4 Cell_init) [Synapse_init 0%Z].

(** A column whose synapses were set to permanences outside [0, 1]. *)
Definition unclamped_column : Column float :=
  mkColumn 1%float 1%float (replicate 4 Cell_init)
    [mkSynapse true 0%Z (-3)%float; mkSynapse false 1%Z 5%float].

(** A column whose one synapse points outside a one-bit input. *)
Definition far_index_column : Column float :=
  mkColumn 1%float 0%float (replicate 4 Cell_init)
    [mkSynapse false 5%Z 0.5%float].

(** A fully connected topology, a column with a given overlap, the three
    columns of scenario 3 and the column of scenario 4. *)
Definition all_adjacent (i j : nat) : bool := true.
Definition column_with_overlap (o : float) : Column float :=
  setOverlap Column_init o.
Definition scenario3_columns : list (Column float) :=
  [column_with_overlap 5; column_with_overlap 3; column_with_overlap 3].
Definition scenario4_column : Column float :=
  mkColumn 1%float 1%float (replicate 4 Cell_init)
    [mkSynapse true 0%Z 0.1%float; mkSynapse false 1%Z 0.1%float].

(** ** [findActiveColumns] for any implementation of its helpers *)

Section AnyHelpers.
Context {T : Type} `{PyNum T}.

(** What [kthScore(getNeighbors(c), desiredLocalActivity)] evaluates to for
    the column at a position of the region: a value or an exception.  The
    module defines neither function, so the call is a parameter here. *)
Variable minLocalActivityOf : list (Column T) → nat → outcome T.

(** The loop of [findActiveColumns] (lines 99-107). *)
Fixpoint selectColumns_with (columns : list (Column T))
    (todo : list (nat * Column T)) : outcome (list nat) :=
  match todo with
  | [] => Return []
  | (i, c) :: rest =>
      if negb (gtb (getOverlap c) lit_0_0)
      then selectColumns_with columns rest
      else
        match minLocalActivityOf columns i with
        | Raise e => Raise e
        | Return minLocalActivity =>
            match selectColumns_with columns rest with
            | Raise e => Raise e
            | Return act =>
                Return (if geb (getOverlap c) minLocalActivity
                        then i :: act else act)
            end
        end
  end.

(** [findActiveColumns(columns, t, ...)] with line 109's assignment. *)
Definition findActiveColumns_with (columns : list (Column T)) (t : Z)
    (ACTIVE_COLUMNS : gmap Z (list nat)) : gmap Z (list nat) * option PyError :=
  match selectColumns_with columns (enumerate_from 0 columns) with
  | Return activeColumns => (<[t := activeColumns]> ACTIVE_COLUMNS, None)
  | Raise e => (ACTIVE_COLUMNS, Some e)
  end.

(** [todo] splits at a first column with a strictly positive overlap for
    which the helper raises [e]. *)
Definition first_raise_in (columns : list (Column T))
    (todo : list (nat * Column T)) (e : PyError)
  : Prop :=
  ∃ pre i c post,
    todo = pre ++ (i, c) :: post ∧
    gtb (getOverlap c) lit_0_0 = true ∧
    minLocalActivityOf columns i = Raise e ∧
    Forall (fun jc => gtb (getOverlap (snd jc)) lit_0_0 = true →
                      ∃ m, minLocalActivityOf columns (fst jc) = Return m)
      pre.

End AnyHelpers.

(** The helper call as the spec-modelled [kthScore] and [getNeighbors]
    answer it. *)
Definition modelled_minLocalActivityOf {T : Type} `{PyNum T}
    (adjacent : nat → nat → bool) (desiredLocalActivity : nat)
    (columns : list (Column T)) (i : nat) : outcome T :=
  match kthScore (getNeighbors adjacent columns i) desiredLocalActivity with
  | Some m => Return m
  | None => Raise KthScoreUndefined
  end.

(** The decision of the loop for one column, given the helper. *)
Definition selected_with {T : Type} `{PyNum T}
    (minLocalActivityOf : list (Column T) → nat → outcome T)
    (columns : list (Column T)) (ic : nat * Column T) : bool :=
  gtb (getOverlap (snd ic)) lit_0_0 &&
  match minLocalActivityOf columns (fst ic) with
  | Return m => geb (getOverlap (snd ic)) m
  | Raise _ => false
  end.

(** What [findOverlap] makes of a column without synapses. *)
Definition overlap_without_synapses {T : Type} `{PyNum T} (minOverlap : T)
    (c : Column T) : Column T :=
  setOverlap c (if ltb lit_0_0 minOverlap then lit_0_0
                else mul lit_0_0 (boost c)).

(** Helpers for the examples: one that always returns a value, one that
    always raises; and a synapse whose permanence is NaN. *)
Definition constant_helper (m : float)
  : list (Column float) → nat → outcome float :=
  fun _ _ => Return m.
Definition raising_helper : list (Column float) → nat → outcome float :=
  fun _ _ => Raise KthScoreUndefined.
Definition nan_synapse : Synapse float := mkSynapse true 0%Z PrimFloat.nan.

(** A column with an active connected synapse and an inactive unconnected
    one. *)
Definition half_connected_column : Column float :=
  mkColumn 1%float 1%float (replicate 4 Cell_init)
    [mkSynapse true 0%Z 0.5%float; mkSynapse false 1%Z 0.1%float].

(** How a step of the arithmetic compares with where it started, and where
    the connection threshold lies. *)
Class StepLaws (T : Type) `{ArithLaws T} := {
  add_step_le x d : leb lit_0_0 d = true → leb x (add x d) = true;
  sub_step_le x d : leb lit_0_0 d = true → leb (sub x d) x = true;
  threshold_lt_1 : ltb lit_0_2 lit_1_0 = true;
  threshold_nonneg : leb lit_0_0 lit_0_2 = true;
}.

(** What the connection argument needs: a step at or above 0.0 does not
    take a positive value down nor a value of [0.0, 1.0] up, it leaves what
    is not at or above 0.0 not positive, and the connection threshold lies
    in [0.0, 1.0). *)
Class ConnectionLaws (T : Type) `{ArithLaws T} := {
  add_grows x d :
    ltb lit_0_0 x = true → leb lit_0_0 d = true → leb x (add x d) = true;
  sub_shrinks x d :
    leb lit_0_0 x = true → leb x lit_1_0 = true → leb lit_0_0 d = true →
    leb (sub x d) x = true;
  sub_not_positive x d :
    leb lit_0_0 x = false → leb lit_0_0 d = true →
    ltb lit_0_0 (sub x d) = false;
  connected_perm_lt_1 : ltb lit_0_2 lit_1_0 = true;
  connected_perm_nonneg : leb lit_0_0 lit_0_2 = true;
}.

(** ** The two instances satisfy the laws *)

(** The rationals. *)
Lemma Q_leb_total (x y : Q) : Qle_bool x y = true ∨ Qle_bool y x = true.
Proof.
  destruct (Qlt_le_dec x y) as [Hlt|Hle].
  - left. apply Qle_bool_iff, Qlt_le_weak, Hlt.
  - right. apply Qle_bool_iff, Hle.
Qed.

Lemma Q_leb_trans (x y z : Q) :
  Qle_bool x y = true → Qle_bool y z = true → Qle_bool x z = true.
Proof.
  rewrite !Qle_bool_iff. apply Qle_trans.
Qed.

#[export, refine] Instance Q_OrderLaws : OrderLaws Q := {|
  is_number := fun _ => true;
|}.
Proof.
  - intros x y _ _. apply Q_leb_total.
  - apply Q_leb_trans.
  - reflexivity.
  - split; reflexivity.
  - split; reflexivity.
  - reflexivity.
  - reflexivity.
Defined.

#[export, refine] Instance Q_ArithLaws : ArithLaws Q := {| leb_0_1 := _ |}.
Proof.
  - reflexivity.
  - intros x d. cbn. rewrite !Qle_bool_iff. lra.
  - intros x d. cbn. rewrite !Qle_bool_iff. lra.
  - reflexivity.
  - reflexivity.
Qed.

(** binary64, through the specification of its comparisons
    ([FloatAxioms]): swapping the arguments mirrors the result, two numbers
    are always comparable, and [<=] is transitive. *)
Lemma SFcompare_flip x y :
  SFcompare y x = option_map CompOpp (SFcompare x y).
Proof.
  destruct x as [sx|sx| |sx mx ex], y as [sy|sy| |sy my ey]; simpl;
    try reflexivity;
    try (destruct sx; reflexivity); try (destruct sy; reflexivity);
    try (destruct sx, sy; reflexivity).
  destruct sx, sy; simpl; try reflexivity; f_equal;
    change (PosDef.Pos.compare_cont Eq) with Pos.compare;
    rewrite (Z.compare_antisym ey ex), (Pos.compare_antisym my mx);
    destruct (ey ?= ex)%Z; simpl; try reflexivity;
    destruct (my ?= mx)%positive; reflexivity.
Qed.

Lemma SFcompare_number x y :
  sf_number x = true → sf_number y = true → ∃ c, SFcompare x y = Some c.
Proof.
  destruct x, y; simpl; intros; try discriminate; eauto.
Qed.

Lemma SFcompare_Some x y c :
  SFcompare x y = Some c → sf_number x = true ∧ sf_number y = true.
Proof.
  destruct x, y; simpl; intros; try discriminate; auto.
Qed.

Lemma SFleb_trans x y z :
  SFleb x y = true → SFleb y z = true → SFleb x z = true.
Proof.
  unfold SFleb.
  destruct x as [sx|sx| |sx mx ex], y as [sy|sy| |sy my ey],
    z as [sz|sz| |sz mz ez]; simpl; try discriminate; try reflexivity;
    repeat match goal with s : bool |- _ => destruct s end;
    simpl; try discriminate; try reflexivity;
    change (PosDef.Pos.compare_cont Eq) with Pos.compare;
    destruct (Z.compare_spec ex ey), (Z.compare_spec ey ez),
      (Z.compare_spec ex ez); simpl; try discriminate; try reflexivity; try lia;
    subst;
    destruct (Pos.compare_spec mx my), (Pos.compare_spec my mz),
      (Pos.compare_spec mx mz); simpl; try discriminate; try reflexivity; try lia.
Qed.

Lemma float_is_number_spec x : float_is_number x = sf_number (Prim2SF x).
Proof.
  unfold float_is_number. rewrite FloatAxioms.eqb_spec. unfold SFeqb.
  destruct (Prim2SF x) as [s|s| |s m e]; simpl; try reflexivity.
  - destruct s; reflexivity.
  - change (PosDef.Pos.compare_cont Eq) with Pos.compare.
    rewrite Z.compare_refl, Pos.compare_refl. destruct s; reflexivity.
Qed.

#[export, refine] Instance float_OrderLaws : OrderLaws float := {|
  is_number := float_is_number;
|}.
Proof.
  - intros x y. rewrite !float_is_number_spec. cbn.
    rewrite !FloatAxioms.leb_spec.
    intros Hx Hy. unfold SFleb. rewrite (SFcompare_flip (Prim2SF x)).
    destruct (SFcompare_number _ _ Hx Hy) as [c ->]. destruct c; cbn; auto.
  - intros x y z. cbn. rewrite !FloatAxioms.leb_spec. apply SFleb_trans.
  - intros x y. rewrite !float_is_number_spec. cbn.
    rewrite FloatAxioms.ltb_spec, FloatAxioms.leb_spec.
    intros Hx Hy. unfold SFltb, SFleb. rewrite (SFcompare_flip (Prim2SF x)).
    destruct (SFcompare_number _ _ Hx Hy) as [c ->]. destruct c; reflexivity.
  - intros x y. rewrite !float_is_number_spec. cbn.
    rewrite FloatAxioms.ltb_spec.
    unfold SFltb. destruct (SFcompare _ _) as [c|] eqn:E; [|discriminate].
    intros _. eapply SFcompare_Some, E.
  - intros x y. rewrite !float_is_number_spec. cbn.
    rewrite FloatAxioms.leb_spec.
    unfold SFleb. destruct (SFcompare _ _) as [c|] eqn:E; [|discriminate].
    intros _. eapply SFcompare_Some, E.
  - reflexivity.
  - reflexivity.
Defined.

(** *** Rounding of binary64 sums and differences

    [FloatAxioms] specifies [+] and [-] through [SFadd] and [SFsub], which
    align the mantissas, add them as integers and round the result to 53
    bits ([binary_round]).  Two facts about that rounding are needed: it
    keeps the sign of what it rounds, and it takes a value below 1.0 to a
    value at or below 1.0. *)

(** [digits2_pos m] is the number of binary digits of [m]. *)
Lemma digits2_pos_bounds (m : positive) :
  (2 ^ (Z.pos (digits2_pos m) - 1) ≤ Z.pos m < 2 ^ Z.pos (digits2_pos m))%Z.
Proof.
  induction m as [m IH | m IH |]; simpl digits2_pos.
  - rewrite Pos2Z.inj_succ.
    replace (Z.succ (Z.pos (digits2_pos m)) - 1)%Z
      with (Z.succ (Z.pos (digits2_pos m) - 1))%Z by lia.
    rewrite !Z.pow_succ_r by lia. lia.
  - rewrite Pos2Z.inj_succ.
    replace (Z.succ (Z.pos (digits2_pos m)) - 1)%Z
      with (Z.succ (Z.pos (digits2_pos m) - 1))%Z by lia.
    rewrite !Z.pow_succ_r by lia. lia.
  - simpl. lia.
Qed.

Lemma digits2_pos_le (m : positive) (k : Z) :
  (Z.pos m < 2 ^ k)%Z → (Z.pos (digits2_pos m) ≤ k)%Z.
Proof.
  intros Hlt. pose proof (digits2_pos_bounds m) as [Hlo _].
  destruct (Z_lt_le_dec k 0) as [Hneg | Hk].
  - rewrite Z.pow_neg_r in Hlt by lia. lia.
  - apply Z.lt_pred_le. apply (Z.pow_lt_mono_r_iff 2); lia.
Qed.

(** Shifting a mantissa to the left by [d] digits. *)
Lemma iter_xO_value (m d : positive) :
  Z.pos (Pos.iter xO m d) = (Z.pos m * 2 ^ Z.pos d)%Z.
Proof.
  induction d as [| d IH] using Pos.peano_ind.
  - simpl. lia.
  - rewrite Pos.iter_succ, Pos2Z.inj_xO, IH, Pos2Z.inj_succ,
      Z.pow_succ_r by lia. lia.
Qed.

Lemma iter_xO_digits (m d : positive) :
  digits2_pos (Pos.iter xO m d) = (digits2_pos m + d)%positive.
Proof.
  induction d as [| d IH] using Pos.peano_ind.
  - simpl. lia.
  - rewrite Pos.iter_succ. simpl. rewrite IH. lia.
Qed.

(** [iter_pos f p] keeps an invariant that counts the steps done. *)
Lemma iter_pos_count {A} (f : A → A) (Q : Z → A → Prop) :
  (∀ k x, (0 ≤ k)%Z → Q k x → Q (k + 1)%Z (f x)) →
  ∀ p k x, (0 ≤ k)%Z → Q k x → Q (k + Z.pos p)%Z (SpecFloat.iter_pos f p x).
Proof.
  intros Hstep p. induction p as [p IH | p IH |]; intros k x Hk HQ; simpl.
  - replace (k + Z.pos p~1)%Z with (k + 1 + Z.pos p + Z.pos p)%Z by lia.
    apply IH; [lia |]. apply IH; [lia |]. apply Hstep; assumption.
  - replace (k + Z.pos p~0)%Z with (k + Z.pos p + Z.pos p)%Z by lia.
    apply IH; [lia |]. apply IH; assumption.
  - apply Hstep; assumption.
Qed.

(** One step of the right shift halves a mantissa that is not negative,
    rounding down; [p] steps divide it by [2 ^ p]. *)
Lemma shr_1_halves (mrs : shr_record) :
  (0 ≤ shr_m mrs)%Z →
  (0 ≤ shr_m (shr_1 mrs))%Z ∧ (2 * shr_m (shr_1 mrs) ≤ shr_m mrs)%Z.
Proof.
  destruct mrs as [m r s]. simpl. intros Hm.
  destruct m as [| [p | p |] | p]; simpl; lia.
Qed.

Lemma iter_shr_1_bound (p : positive) (mrs : shr_record) :
  (0 ≤ shr_m mrs)%Z →
  (0 ≤ shr_m (SpecFloat.iter_pos shr_1 p mrs))%Z ∧
  (shr_m (SpecFloat.iter_pos shr_1 p mrs) * 2 ^ Z.pos p ≤ shr_m mrs)%Z.
Proof.
  intros Hm.
  pose (Q := fun (k : Z) (x : shr_record) =>
    (0 ≤ shr_m x)%Z ∧ (shr_m x * 2 ^ k ≤ shr_m mrs)%Z).
  assert (HQ : Q (0 + Z.pos p)%Z (SpecFloat.iter_pos shr_1 p mrs)).
  { apply iter_pos_count; [| lia | unfold Q; simpl; lia].
    intros k x Hk [Hx Hb]. destruct (shr_1_halves x Hx) as [Hx' Hh].
    split; [assumption |]. rewrite Z.pow_add_r by lia.
    change (2 ^ 1)%Z with 2%Z.
    assert (0 < 2 ^ k)%Z by (apply Z.pow_pos_nonneg; lia). nia. }
  exact HQ.
Qed.

Lemma shr_nonneg (mrs : shr_record) (e n : Z) :
  (0 ≤ shr_m mrs)%Z → (0 ≤ shr_m (shr mrs e n).1)%Z.
Proof.
  intros Hm. destruct n as [| p | p]; simpl; [assumption | | assumption].
  apply iter_shr_1_bound; assumption.
Qed.

Lemma shr_m_of_loc (m : Z) (l : location) :
  shr_m (shr_record_of_loc m l) = m.
Proof. destruct l as [| []]; reflexivity. Qed.

Lemma round_nearest_even_bounds (m : Z) (l : location) :
  (m ≤ round_nearest_even m l ≤ m + 1)%Z.
Proof.
  destruct l as [| []]; simpl; try lia. destruct (Z.even m); lia.
Qed.

Lemma fexp64 (e : Z) : fexp prec emax e = Z.max (e - 53) (-1074).
Proof. reflexivity. Qed.

(** Rounding keeps the sign it is given: the result is a zero, a finite
    value or an infinity of that sign, and never NaN. *)
Lemma binary_round_aux_shape (sx : bool) (mx ex : Z) (lx : location) :
  (0 ≤ mx)%Z →
  binary_round_aux prec emax sx mx ex lx = S754_zero sx ∨
  (∃ m e, binary_round_aux prec emax sx mx ex lx = S754_finite sx m e) ∨
  binary_round_aux prec emax sx mx ex lx = S754_infinity sx.
Proof.
  intros Hm. unfold binary_round_aux, shr_fexp.
  destruct (shr (shr_record_of_loc mx lx) ex
              (fexp prec emax (Zdigits2 mx + ex) - ex)) as [mrs' e'] eqn:E1.
  assert (H1 : (0 ≤ shr_m mrs')%Z).
  { change mrs' with (mrs', e').1. rewrite <- E1.
    apply shr_nonneg. rewrite shr_m_of_loc. assumption. }
  pose proof (round_nearest_even_bounds (shr_m mrs') (loc_of_shr_record mrs'))
    as H2.
  set (m2 := round_nearest_even (shr_m mrs') (loc_of_shr_record mrs')) in *.
  destruct (shr (shr_record_of_loc m2 loc_Exact) e'
              (fexp prec emax (Zdigits2 m2 + e') - e')) as [mrs'' e''] eqn:E2.
  assert (H3 : (0 ≤ shr_m mrs'')%Z).
  { change mrs'' with (mrs'', e'').1. rewrite <- E2.
    apply shr_nonneg. simpl. lia. }
  destruct (shr_m mrs'') as [| m | m]; [left; reflexivity | | lia].
  destruct (e'' <=? emax - prec)%Z; [right; left; eauto | right; right; reflexivity].
Qed.

(** Aligning a mantissa to a smaller exponent keeps the value. *)
Lemma shl_align_digits (m : positive) (e e' : Z) :
  (Z.pos (digits2_pos (shl_align m e e').1) + (shl_align m e e').2
   = Z.pos (digits2_pos m) + e)%Z ∧
  ((shl_align m e e').2 = Z.min e e').
Proof.
  unfold shl_align. destruct (e' - e)%Z as [| d | d] eqn:E; simpl.
  - lia.
  - lia.
  - rewrite iter_xO_digits. lia.
Qed.

Lemma shl_align_value (m : positive) (e e' : Z) :
  (e' ≤ e)%Z →
  Z.pos (shl_align m e e').1 = (Z.pos m * 2 ^ (e - e'))%Z.
Proof.
  intros Hle. unfold shl_align. destruct (e' - e)%Z as [| d | d] eqn:E; simpl.
  - replace (e - e')%Z with 0%Z by lia. simpl. lia.
  - lia.
  - rewrite iter_xO_value. f_equal. f_equal. lia.
Qed.

(** The first shift of [binary_round_aux] brings the mantissa under
    [2 ^ 53] at the exponent [f0] it aims at. *)
Lemma shr_to_fexp (mz : positive) (ez f0 : Z) :
  (ez ≤ f0)%Z → (Z.pos (digits2_pos mz) + ez - 53 ≤ f0)%Z →
  (shr (shr_record_of_loc (Z.pos mz) loc_Exact) ez (f0 - ez)).2 = f0 ∧
  (0 ≤ shr_m (shr (shr_record_of_loc (Z.pos mz) loc_Exact) ez (f0 - ez)).1
     < 9007199254740992)%Z.
Proof.
  intros Hle Hd. pose proof (digits2_pos_bounds mz) as [_ Hup].
  unfold shr. destruct (f0 - ez)%Z as [| p | p] eqn:E; simpl; [| | lia].
  - split; [lia |]. split; [lia |].
    eapply Z.lt_le_trans; [exact Hup |].
    change 9007199254740992%Z with (2 ^ 53)%Z.
    apply Z.pow_le_mono_r; lia.
  - split; [lia |].
    destruct (iter_shr_1_bound p {| shr_m := Z.pos mz; shr_r := false; shr_s := false |})
      as [H0 Hb]; [simpl; lia |]. simpl in Hb.
    split; [assumption |].
    assert (Hpow : (2 ^ Z.pos (digits2_pos mz) ≤ 2 ^ Z.pos p * 9007199254740992)%Z).
    { change 9007199254740992%Z with (2 ^ 53)%Z.
      rewrite <- Z.pow_add_r by lia. apply Z.pow_le_mono_r; lia. }
    assert (0 < 2 ^ Z.pos p)%Z by (apply Z.pow_pos_nonneg; lia).
    nia.
Qed.

(** The second shift: a mantissa of at most [2 ^ 53] at an exponent of at
    most -53 gives a value at or below 1.0, which is [2 ^ 52 * 2 ^ -52]. *)
Lemma round_up_le_one (m2 f0 : Z) :
  (0 ≤ m2 ≤ 9007199254740992)%Z → (-1074 ≤ f0 ≤ -53)%Z →
  SFleb
    (let '(mrs'', e'') := shr_fexp prec emax m2 f0 loc_Exact in
     match shr_m mrs'' with
     | Z0 => S754_zero false
     | Z.pos m =>
         if (e'' <=? emax - prec)%Z then S754_finite false m e''
         else S754_infinity false
     | Z.neg _ => S754_nan
     end)
    (S754_finite false 4503599627370496 (-52)) = true.
Proof.
  intros Hm Hf. unfold shr_fexp. rewrite fexp64.
  destruct m2 as [| q | q]; [| | lia].
  - simpl Zdigits2. unfold shr.
    destruct (Z.max (0 + f0 - 53) (-1074) - f0)%Z eqn:E; try lia; reflexivity.
  - simpl Zdigits2.
    destruct (Z_lt_le_dec (Z.pos q) 9007199254740992) as [Hlt | Hge].
    + assert (Hd : (Z.pos (digits2_pos q) ≤ 53)%Z)
        by (apply digits2_pos_le; exact Hlt).
      unfold shr.
      destruct (Z.max (Z.pos (digits2_pos q) + f0 - 53) (-1074) - f0)%Z eqn:E;
        try lia; simpl.
      * destruct (f0 <=? emax - prec)%Z eqn:El.
        -- unfold SFleb, SFcompare.
           destruct (Z.compare_spec f0 (-52)); try lia; reflexivity.
        -- apply Z.leb_gt in El. unfold emax, prec in El. lia.
      * destruct (f0 <=? emax - prec)%Z eqn:El.
        -- unfold SFleb, SFcompare.
           destruct (Z.compare_spec f0 (-52)); try lia; reflexivity.
        -- apply Z.leb_gt in El. unfold emax, prec in El. lia.
    + assert (Hq : q = 9007199254740992%positive) by lia. subst q.
      change (Z.pos (digits2_pos 9007199254740992)) with 54%Z.
      replace (Z.max (54 + f0 - 53) (-1074) - f0)%Z with 1%Z by lia.
      simpl.
      destruct (f0 + 1 <=? emax - prec)%Z eqn:El.
      * unfold SFleb, SFcompare.
        destruct (Z.compare_spec (f0 + 1) (-52)); try lia; reflexivity.
      * apply Z.leb_gt in El. unfold emax, prec in El. lia.
Qed.

(** Rounding [M * 2 ^ e], a positive value below 1.0. *)
Lemma binary_round_le_one (M : positive) (e : Z) :
  (Z.pos (digits2_pos M) + e ≤ 0)%Z →
  SFleb (binary_round prec emax false M e)
        (S754_finite false 4503599627370496 (-52)) = true.
Proof.
  intros HD. unfold binary_round.
  set (f0 := fexp prec emax (Z.pos (digits2_pos M) + e)).
  assert (Hf0 : (f0 = Z.max (Z.pos (digits2_pos M) + e - 53) (-1074))%Z)
    by reflexivity.
  pose proof (shl_align_digits M e f0) as [Hdig Hez].
  destruct (shl_align M e f0) as [mz ez] eqn:Ea. simpl in Hdig, Hez.
  unfold binary_round_aux.
  unfold shr_fexp at 1. simpl Zdigits2. rewrite Hdig. fold f0.
  destruct (shr_to_fexp mz ez f0) as [He' Hm1]; [lia | lia |].
  destruct (shr (shr_record_of_loc (Z.pos mz) loc_Exact) ez (f0 - ez))
    as [mrs' e'] eqn:E1. simpl in He', Hm1. subst e'.
  pose proof (round_nearest_even_bounds (shr_m mrs') (loc_of_shr_record mrs'))
    as H2.
  apply round_up_le_one; lia.
Qed.

Lemma binary_round_nonneg (m : positive) (e : Z) :
  SFleb (S754_zero false) (binary_round prec emax false m e) = true.
Proof.
  unfold binary_round. destruct (shl_align _ _ _) as [mz ez].
  destruct (binary_round_aux_shape false (Z.pos mz) ez loc_Exact)
    as [-> | [(m' & e' & ->) | ->]]; [lia | reflexivity ..].
Qed.

Lemma binary_round_neg_le_one (m : positive) (e : Z) :
  SFleb (binary_round prec emax true m e)
        (S754_finite false 4503599627370496 (-52)) = true.
Proof.
  unfold binary_round. destruct (shl_align _ _ _) as [mz ez].
  destruct (binary_round_aux_shape true (Z.pos mz) ez loc_Exact)
    as [-> | [(m' & e' & ->) | ->]]; [lia | reflexivity ..].
Qed.

(** The sum of two values at or above 0.0 is at or above 0.0. *)
Lemma SFadd_nonneg (x y : spec_float) :
  SFleb (S754_zero false) x = true → SFleb (S754_zero false) y = true →
  SFleb (S754_zero false) (SFadd prec emax x y) = true.
Proof.
  intros Hx Hy.
  destruct x as [sx | sx | | sx mx ex]; try discriminate Hx;
    destruct y as [sy | sy | | sy my ey]; try discriminate Hy;
    try (destruct sx; try discriminate Hx);
    try (destruct sy; try discriminate Hy);
    lazymatch goal with
    | |- context [SFadd _ _ (S754_finite _ _ _) (S754_finite _ _ _)] => idtac
    | _ => reflexivity
    end.
  unfold SFadd, cond_Zopp. simpl Z.add. unfold binary_normalize.
  apply binary_round_nonneg.
Qed.

(** The mantissa of a valid value at or below 1.0, aligned to the exponent
    [ez], is at most [2 ^ (- ez)]. *)
Lemma scaled_le_one (mx : positive) (ex ez : Z) :
  (ez ≤ ex)%Z → (Z.pos (digits2_pos mx) ≤ 53)%Z →
  (ex < -52 ∨ (ex = -52 ∧ Z.pos mx ≤ 4503599627370496))%Z →
  (Z.pos mx * 2 ^ (ex - ez) ≤ 2 ^ (- ez))%Z.
Proof.
  intros Hez Hd Hx.
  assert (Hpos : (0 ≤ 2 ^ (ex - ez))%Z) by (apply Z.pow_nonneg; lia).
  destruct Hx as [Hlt | [-> Hm]].
  - pose proof (digits2_pos_bounds mx) as [_ Hup].
    apply Z.le_trans with (2 ^ Z.pos (digits2_pos mx) * 2 ^ (ex - ez))%Z.
    + apply Z.mul_le_mono_nonneg_r; [assumption | lia].
    + rewrite <- (Z.pow_add_r 2 (Z.pos (digits2_pos mx)) (ex - ez)) by lia.
      apply Z.pow_le_mono_r; lia.
  - apply Z.le_trans with (2 ^ 52 * 2 ^ (-52 - ez))%Z.
    + apply Z.mul_le_mono_nonneg_r; [assumption |].
      change (2 ^ 52)%Z with 4503599627370496%Z. assumption.
    + rewrite <- (Z.pow_add_r 2 52 (-52 - ez)) by lia.
      apply Z.pow_le_mono_r; lia.
Qed.

Lemma SFleb_one_inv (mx : positive) (ex : Z) :
  SFleb (S754_finite false mx ex) (S754_finite false 4503599627370496 (-52))
    = true →
  (ex < -52 ∨ (ex = -52 ∧ Z.pos mx ≤ 4503599627370496))%Z.
Proof.
  unfold SFleb, SFcompare. intros H1.
  destruct (Z.compare_spec ex (-52)) as [He | He | He];
    [| left; assumption | discriminate H1].
  right. split; [assumption |].
  change (PosDef.Pos.compare_cont Eq) with Pos.compare in H1.
  destruct (Pos.compare_spec mx 4503599627370496) as [Hm | Hm | Hm];
    [subst mx; reflexivity | | discriminate H1].
  apply Z.lt_le_incl. exact Hm.
Qed.

Lemma valid_binary_digits (s : bool) (mx : positive) (ex : Z) :
  valid_binary (S754_finite s mx ex) = true → (Z.pos (digits2_pos mx) ≤ 53)%Z.
Proof.
  simpl. unfold bounded, canonical_mantissa. intros Hv.
  apply andb_prop in Hv as [Hc _]. apply Z.eqb_eq in Hc.
  rewrite fexp64 in Hc. lia.
Qed.

(** Taking a value at or above 0.0 from a value in [0.0, 1.0] leaves a
    value at or below 1.0. *)
Lemma SFsub_le_one (x d : spec_float) :
  valid_binary x = true →
  SFleb (S754_zero false) x = true →
  SFleb x (S754_finite false 4503599627370496 (-52)) = true →
  SFleb (S754_zero false) d = true →
  SFleb (SFsub prec emax x d) (S754_finite false 4503599627370496 (-52)) = true.
Proof.
  intros Hv H0 H1 Hd.
  destruct x as [sx | sx | | sx mx ex]; try discriminate H0;
    destruct d as [sd | sd | | sd md ed]; try discriminate Hd;
    try (destruct sx; try discriminate H0; try discriminate H1);
    try (destruct sd; try discriminate Hd);
    lazymatch goal with
    | |- context [SFsub _ _ (S754_finite _ _ _) (S754_finite _ _ _)] => idtac
    | _ => first [reflexivity | assumption]
    end.
  apply SFleb_one_inv in H1. apply valid_binary_digits in Hv. clear H0 Hd.
  unfold SFsub, cond_Zopp. set (ez := Z.min ex ed).
  assert (Hez : (ez ≤ ex)%Z) by (subst ez; lia).
  pose proof (shl_align_value mx ex ez Hez) as Ha.
  pose proof (scaled_le_one mx ex ez Hez Hv H1) as Hx.
  rewrite <- Ha in Hx. clear Ha H1 Hv.
  destruct (Z.pos (shl_align mx ex ez).1 - Z.pos (shl_align md ed ez).1)%Z
    as [| M | M] eqn:EM; unfold binary_normalize.
  - reflexivity.
  - apply binary_round_le_one.
    assert (Hlt : (Z.pos M < 2 ^ (- ez))%Z) by lia.
    apply digits2_pos_le in Hlt. lia.
  - apply binary_round_neg_le_one.
Qed.

Lemma float_add_nonneg (x d : float) :
  PrimFloat.leb 0 x = true → PrimFloat.leb 0 d = true →
  PrimFloat.leb 0 (x + d) = true.
Proof.
  rewrite !FloatAxioms.leb_spec, FloatAxioms.add_spec.
  change (Prim2SF 0) with (S754_zero false). apply SFadd_nonneg.
Qed.

Lemma float_sub_le_1 (x d : float) :
  PrimFloat.leb 0 x = true → PrimFloat.leb x 1 = true →
  PrimFloat.leb 0 d = true → PrimFloat.leb (x - d) 1 = true.
Proof.
  rewrite !FloatAxioms.leb_spec, FloatAxioms.sub_spec.
  change (Prim2SF 0) with (S754_zero false).
  change (Prim2SF 1) with (S754_finite false 4503599627370496 (-52)).
  apply SFsub_le_one. apply Prim2SF_valid.
Qed.

(** The right shift is the floor of the division. *)
Lemma shr_1_floor (mrs : shr_record) :
  (0 ≤ shr_m mrs)%Z → (shr_m mrs ≤ 2 * shr_m (shr_1 mrs) + 1)%Z.
Proof.
  destruct mrs as [m r s]. simpl. intros Hm.
  destruct m as [| [p | p |] | p]; simpl; lia.
Qed.

Lemma iter_shr_1_floor (p : positive) (mrs : shr_record) :
  (0 ≤ shr_m mrs)%Z →
  (shr_m mrs < (shr_m (SpecFloat.iter_pos shr_1 p mrs) + 1) * 2 ^ Z.pos p)%Z.
Proof.
  intros Hm.
  pose (Q := fun (k : Z) (x : shr_record) =>
    (0 ≤ shr_m x)%Z ∧ (shr_m mrs < (shr_m x + 1) * 2 ^ k)%Z).
  assert (HQ : Q (0 + Z.pos p)%Z (SpecFloat.iter_pos shr_1 p mrs)).
  { apply iter_pos_count; [| lia | unfold Q; simpl; lia].
    intros k x Hk [Hx Hb]. destruct (shr_1_halves x Hx) as [Hx' _].
    pose proof (shr_1_floor x Hx) as Hf.
    split; [assumption |]. rewrite Z.pow_add_r by lia.
    change (2 ^ 1)%Z with 2%Z.
    assert (0 < 2 ^ k)%Z by (apply Z.pow_pos_nonneg; lia). nia. }
  exact (proj2 HQ).
Qed.

(** The first shift of [binary_round_aux], with what it does to the value. *)
Lemma shr_to_fexp_floor (mz : positive) (ez f0 : Z) :
  (ez ≤ f0)%Z →
  (shr_m (shr (shr_record_of_loc (Z.pos mz) loc_Exact) ez (f0 - ez)).1
     * 2 ^ (f0 - ez) ≤ Z.pos mz
   < (shr_m (shr (shr_record_of_loc (Z.pos mz) loc_Exact) ez (f0 - ez)).1 + 1)
     * 2 ^ (f0 - ez))%Z ∧
  (f0 = ez →
   loc_of_shr_record
     (shr (shr_record_of_loc (Z.pos mz) loc_Exact) ez (f0 - ez)).1
   = loc_Exact).
Proof.
  intros Hle. unfold shr.
  destruct (f0 - ez)%Z as [| p | p] eqn:E; simpl; [| | lia].
  - split; [lia | reflexivity].
  - split; [| lia].
    pose (r := {| shr_m := Z.pos mz; shr_r := false; shr_s := false |}).
    destruct (iter_shr_1_bound p r) as [H0 Hb]; [simpl; lia |].
    pose proof (iter_shr_1_floor p r ltac:(simpl; lia)) as Hf.
    simpl in Hb, Hf. fold r. lia.
Qed.

(** [binary_round] in two stages: the mantissa [m1] that the first shift
    leaves at the exponent [f0], and the rounding and second shift of
    [m2], which is [m1] or [m1 + 1]. *)
Lemma binary_round_stages (s : bool) (M : positive) (e : Z) :
  ∃ m1 m2 : Z,
    binary_round prec emax s M e
    = (let '(mrs, e') :=
         shr_fexp prec emax m2
           (fexp prec emax (Z.pos (digits2_pos M) + e)) loc_Exact in
       match shr_m mrs with
       | Z0 => S754_zero s
       | Z.pos m =>
           if (e' <=? emax - prec)%Z then S754_finite s m e'
           else S754_infinity s
       | Z.neg _ => S754_nan
       end) ∧
    (0 ≤ m1 < 9007199254740992)%Z ∧ (m1 ≤ m2 ≤ m1 + 1)%Z ∧
    (e ≤ fexp prec emax (Z.pos (digits2_pos M) + e) →
     m1 * 2 ^ (fexp prec emax (Z.pos (digits2_pos M) + e) - e) ≤ Z.pos M
     < (m1 + 1) * 2 ^ (fexp prec emax (Z.pos (digits2_pos M) + e) - e))%Z ∧
    (fexp prec emax (Z.pos (digits2_pos M) + e) ≤ e →
     m1 = Z.pos M * 2 ^ (e - fexp prec emax (Z.pos (digits2_pos M) + e))
     ∧ m2 = m1)%Z.
Proof.
  unfold binary_round.
  set (f0 := fexp prec emax (Z.pos (digits2_pos M) + e)).
  assert (Hf0 : (f0 = Z.max (Z.pos (digits2_pos M) + e - 53) (-1074))%Z)
    by reflexivity.
  pose proof (shl_align_digits M e f0) as [Hdig Hez].
  pose proof (shl_align_value M e f0) as Hval.
  assert (Hid : (e ≤ f0)%Z → (shl_align M e f0).1 = M).
  { intros Hle. unfold shl_align.
    destruct (f0 - e)%Z eqn:E; try reflexivity. lia. }
  destruct (shl_align M e f0) as [mz ez] eqn:Ea. simpl in Hdig, Hez, Hval, Hid.
  unfold binary_round_aux.
  unfold shr_fexp at 1. simpl Zdigits2. rewrite Hdig. fold f0.
  destruct (shr_to_fexp mz ez f0) as [He' Hm1]; [lia | lia |].
  destruct (shr_to_fexp_floor mz ez f0) as [Hfl Hex]; [lia |].
  destruct (shr (shr_record_of_loc (Z.pos mz) loc_Exact) ez (f0 - ez))
    as [mrs' e'] eqn:E1. simpl in He', Hm1, Hfl, Hex. subst e'.
  pose proof (round_nearest_even_bounds (shr_m mrs') (loc_of_shr_record mrs'))
    as H2.
  exists (shr_m mrs'), (round_nearest_even (shr_m mrs') (loc_of_shr_record mrs')).
  split; [reflexivity |]. split; [exact Hm1 |]. split; [exact H2 |]. split.
  - intros Hle. rewrite (Hid Hle) in Hfl.
    replace ez with e in Hfl by lia. exact Hfl.
  - intros Hle. assert (Hez' : ez = f0) by lia.
    rewrite Hex by lia. simpl.
    rewrite Hez' in Hfl. replace (f0 - f0)%Z with 0%Z in Hfl by lia.
    simpl in Hfl. rewrite Hval in Hfl by lia. split; lia.
Qed.

(** The second stage against a valid positive value [mx * 2 ^ ex]. *)
Lemma round_up_le (m2 f0 : Z) (mx : positive) (ex : Z) :
  (0 ≤ m2 ≤ 9007199254740992)%Z → (-1074 ≤ f0 ≤ ex)%Z → (ex ≤ 971)%Z →
  (Z.pos mx < 9007199254740992)%Z →
  (f0 = ex → m2 ≤ Z.pos mx)%Z →
  (f0 + 1 = ex → 4503599627370496 ≤ Z.pos mx)%Z →
  SFleb
    (let '(mrs, e') := shr_fexp prec emax m2 f0 loc_Exact in
     match shr_m mrs with
     | Z0 => S754_zero false
     | Z.pos m =>
         if (e' <=? emax - prec)%Z then S754_finite false m e'
         else S754_infinity false
     | Z.neg _ => S754_nan
     end)
    (S754_finite false mx ex) = true.
Proof.
  intros Hm Hf Hex Hmx Heq Hcarry. unfold shr_fexp. rewrite fexp64.
  destruct m2 as [| q | q]; [| | lia].
  - simpl Zdigits2. unfold shr.
    destruct (Z.max (0 + f0 - 53) (-1074) - f0)%Z eqn:E; try lia; reflexivity.
  - simpl Zdigits2.
    destruct (Z_lt_le_dec (Z.pos q) 9007199254740992) as [Hlt | Hge].
    + assert (Hd : (Z.pos (digits2_pos q) ≤ 53)%Z)
        by (apply digits2_pos_le; exact Hlt).
      assert (Hres : SFleb (S754_finite false q f0) (S754_finite false mx ex)
                     = true).
      { unfold SFleb, SFcompare.
        change (PosDef.Pos.compare_cont Eq) with Pos.compare.
        destruct (Z.compare_spec f0 ex) as [He | He | He];
          [| reflexivity | lia].
        destruct (Pos.compare_spec q mx) as [Hq | Hq | Hq];
          [reflexivity | reflexivity | lia]. }
      unfold shr.
      destruct (Z.max (Z.pos (digits2_pos q) + f0 - 53) (-1074) - f0)%Z eqn:E;
        try lia; simpl;
        (destruct (f0 <=? emax - prec)%Z eqn:El;
         [exact Hres | apply Z.leb_gt in El; unfold emax, prec in El; lia]).
    + assert (Hq : q = 9007199254740992%positive) by lia. subst q.
      change (Z.pos (digits2_pos 9007199254740992)) with 54%Z.
      replace (Z.max (54 + f0 - 53) (-1074) - f0)%Z with 1%Z by lia.
      simpl.
      destruct (f0 + 1 <=? emax - prec)%Z eqn:El.
      * unfold SFleb, SFcompare.
        change (PosDef.Pos.compare_cont Eq) with Pos.compare.
        destruct (Z.compare_spec (f0 + 1) ex) as [He | He | He];
          [| reflexivity | lia].
        destruct (Pos.compare_spec 4503599627370496 mx) as [Hq | Hq | Hq];
          [reflexivity | reflexivity |].
        apply Pos2Z.pos_lt_pos in Hq. specialize (Hcarry He).
        clear - Hq Hcarry. lia.
      * apply Z.leb_gt in El. unfold emax, prec in El. lia.
Qed.

Lemma round_up_ge (m2 f0 : Z) (mx : positive) (ex : Z) :
  (1 ≤ m2 ≤ 9007199254740992)%Z → (-1074 ≤ f0)%Z → (ex ≤ f0)%Z →
  (f0 = ex → Z.pos mx ≤ m2)%Z →
  SFleb
    (S754_finite false mx ex)
    (let '(mrs, e') := shr_fexp prec emax m2 f0 loc_Exact in
     match shr_m mrs with
     | Z0 => S754_zero false
     | Z.pos m =>
         if (e' <=? emax - prec)%Z then S754_finite false m e'
         else S754_infinity false
     | Z.neg _ => S754_nan
     end) = true.
Proof.
  intros Hm Hf Hex Heq. unfold shr_fexp. rewrite fexp64.
  destruct m2 as [| q | q]; [lia | | lia].
  simpl Zdigits2.
  destruct (Z_lt_le_dec (Z.pos q) 9007199254740992) as [Hlt | Hge].
  - assert (Hd : (Z.pos (digits2_pos q) ≤ 53)%Z)
      by (apply digits2_pos_le; exact Hlt).
    assert (Hres : SFleb (S754_finite false mx ex) (S754_finite false q f0)
                   = true).
    { unfold SFleb, SFcompare.
      change (PosDef.Pos.compare_cont Eq) with Pos.compare.
      destruct (Z.compare_spec ex f0) as [He | He | He];
        [| reflexivity | lia].
      destruct (Pos.compare_spec mx q) as [Hq | Hq | Hq];
        [reflexivity | reflexivity | lia]. }
    unfold shr.
    destruct (Z.max (Z.pos (digits2_pos q) + f0 - 53) (-1074) - f0)%Z eqn:E;
      try lia; simpl;
      (destruct (f0 <=? emax - prec)%Z; [exact Hres | reflexivity]).
  - assert (Hq : q = 9007199254740992%positive) by lia. subst q.
    change (Z.pos (digits2_pos 9007199254740992)) with 54%Z.
    replace (Z.max (54 + f0 - 53) (-1074) - f0)%Z with 1%Z by lia.
    simpl.
    destruct (f0 + 1 <=? emax - prec)%Z; [| reflexivity].
    unfold SFleb, SFcompare.
    destruct (Z.compare_spec ex (f0 + 1)) as [He | He | He];
      [lia | reflexivity | lia].
Qed.

(** What validity says of a finite value. *)
Lemma bounded_inv (mx : positive) (ex : Z) :
  bounded prec emax mx ex = true →
  (Z.pos (digits2_pos mx) ≤ 53 ∧ -1074 ≤ ex ≤ 971 ∧
   (-1074 < ex → Z.pos (digits2_pos mx) = 53))%Z.
Proof.
  unfold bounded, canonical_mantissa. intros Hv.
  apply andb_prop in Hv as [Hc Hb]. apply Z.eqb_eq in Hc.
  apply Z.leb_le in Hb. rewrite fexp64 in Hc.
  unfold emax, prec in Hb. lia.
Qed.

(** Rounding is monotone against a valid value: a positive value below
    [mx * 2 ^ ex] rounds to at most that, and one at or above it rounds to
    at least that. *)
Lemma binary_round_le (M : positive) (e : Z) (mx : positive) (ex : Z) :
  bounded prec emax mx ex = true → (e ≤ ex)%Z →
  (Z.pos M < Z.pos mx * 2 ^ (ex - e))%Z →
  SFleb (binary_round prec emax false M e) (S754_finite false mx ex) = true.
Proof.
  intros Hv Hle HM.
  destruct (bounded_inv mx ex Hv) as [Hdx [Hex Hnorm]].
  pose proof (digits2_pos_bounds mx) as [Hlo Hup].
  assert (Hpow : (0 < 2 ^ (ex - e))%Z) by (apply Z.pow_pos_nonneg; lia).
  assert (HD : (Z.pos (digits2_pos M) + e ≤ Z.pos (digits2_pos mx) + ex)%Z).
  { assert (Hlt : (Z.pos M < 2 ^ (Z.pos (digits2_pos mx) + (ex - e)))%Z).
    { rewrite Z.pow_add_r by lia. nia. }
    apply digits2_pos_le in Hlt. lia. }
  destruct (binary_round_stages false M e)
    as (m1 & m2 & -> & Hm1 & Hm2 & Hfloor & _).
  rewrite fexp64 in Hfloor.
  set (f0 := fexp prec emax (Z.pos (digits2_pos M) + e)).
  assert (Hf0 : (f0 = Z.max (Z.pos (digits2_pos M) + e - 53) (-1074))%Z)
    by reflexivity.
  rewrite <- Hf0 in Hfloor.
  assert (Hmx : (Z.pos mx < 9007199254740992)%Z).
  { eapply Z.lt_le_trans; [exact Hup |].
    change 9007199254740992%Z with (2 ^ 53)%Z.
    apply Z.pow_le_mono_r; lia. }
  apply round_up_le; try lia.
  - intros Heq. rewrite Heq in Hfloor. specialize (Hfloor Hle).
    assert (m1 < Z.pos mx)%Z by nia. lia.
  - intros Heq. rewrite Hnorm in Hlo by lia.
    change (2 ^ (53 - 1))%Z with 4503599627370496%Z in Hlo. exact Hlo.
Qed.

Lemma binary_round_ge (M : positive) (e : Z) (mx : positive) (ex : Z) :
  bounded prec emax mx ex = true → (e ≤ ex)%Z →
  (Z.pos mx * 2 ^ (ex - e) ≤ Z.pos M)%Z →
  SFleb (S754_finite false mx ex) (binary_round prec emax false M e) = true.
Proof.
  intros Hv Hle HM.
  destruct (bounded_inv mx ex Hv) as [Hdx [Hex Hnorm]].
  pose proof (digits2_pos_bounds mx) as [Hlo Hup].
  pose proof (digits2_pos_bounds M) as [HloM HupM].
  assert (Hpow : (0 < 2 ^ (ex - e))%Z) by (apply Z.pow_pos_nonneg; lia).
  assert (HD : (Z.pos (digits2_pos mx) + ex ≤ Z.pos (digits2_pos M) + e)%Z).
  { assert (Hlt : (2 ^ (Z.pos (digits2_pos mx) - 1 + (ex - e))
                   < 2 ^ Z.pos (digits2_pos M))%Z).
    { rewrite Z.pow_add_r by lia. nia. }
    apply Z.pow_lt_mono_r_iff in Hlt; lia. }
  destruct (binary_round_stages false M e)
    as (m1 & m2 & -> & Hm1 & Hm2 & Hfloor & _).
  rewrite fexp64 in Hfloor.
  set (f0 := fexp prec emax (Z.pos (digits2_pos M) + e)).
  assert (Hf0 : (f0 = Z.max (Z.pos (digits2_pos M) + e - 53) (-1074))%Z)
    by reflexivity.
  rewrite <- Hf0 in Hfloor.
  assert (Hge : (ex ≤ f0)%Z) by lia.
  specialize (Hfloor ltac:(lia)).
  assert (Hpow' : (0 < 2 ^ (f0 - e))%Z) by (apply Z.pow_pos_nonneg; lia).
  assert (Hone : (1 ≤ m1)%Z ∧ (f0 = ex → Z.pos mx ≤ m1)%Z).
  { destruct (Z.eq_dec f0 ex) as [Heq | Hne].
    - rewrite Heq in Hfloor. split; [| intros _]; nia.
    - split; [| lia].
      assert (Hn : (f0 - e = Z.pos (digits2_pos M) - 53)%Z) by lia.
      assert (Hsplit : (2 ^ (Z.pos (digits2_pos M) - 1)
                        = 4503599627370496 * 2 ^ (f0 - e))%Z).
      { change 4503599627370496%Z with (2 ^ 52)%Z.
        rewrite <- (Z.pow_add_r 2 52 (f0 - e)) by lia. f_equal. lia. }
      nia. }
  apply round_up_ge; try lia.
Qed.

Lemma binary_round_shape (s : bool) (m : positive) (e : Z) :
  binary_round prec emax s m e = S754_zero s ∨
  (∃ m' e', binary_round prec emax s m e = S754_finite s m' e') ∨
  binary_round prec emax s m e = S754_infinity s.
Proof.
  unfold binary_round. destruct (shl_align _ _ _) as [mz ez].
  apply binary_round_aux_shape. lia.
Qed.

Lemma SFleb_refl_finite (s : bool) (m : positive) (e : Z) :
  SFleb (S754_finite s m e) (S754_finite s m e) = true.
Proof.
  unfold SFleb, SFcompare.
  change (PosDef.Pos.compare_cont Eq) with Pos.compare.
  rewrite Z.compare_refl, Pos.compare_refl. destruct s; reflexivity.
Qed.

(** Adding a value at or above 0.0 to a positive value does not make it
    smaller. *)
Lemma SFadd_step_le (x d : spec_float) :
  valid_binary x = true →
  SFltb (S754_zero false) x = true → SFleb (S754_zero false) d = true →
  SFleb x (SFadd prec emax x d) = true.
Proof.
  intros Hv Hx Hd.
  destruct x as [sx | sx | | sx mx ex]; try discriminate Hx;
    destruct d as [sd | sd | | sd md ed]; try discriminate Hd;
    try (destruct sx; try discriminate Hx);
    try (destruct sd; try discriminate Hd);
    lazymatch goal with
    | |- context [SFadd _ _ (S754_finite _ _ _) (S754_finite _ _ _)] => idtac
    | |- context [SFadd _ _ (S754_finite _ _ _) (S754_zero _)] =>
        apply SFleb_refl_finite
    | _ => reflexivity
    end.
  unfold SFadd, cond_Zopp. set (ez := Z.min ex ed).
  assert (Hez : (ez ≤ ex)%Z) by (subst ez; lia).
  pose proof (shl_align_value mx ex ez Hez) as Ha.
  simpl Z.add. unfold binary_normalize.
  apply binary_round_ge; [exact Hv | exact Hez |].
  rewrite <- Ha. rewrite Pos2Z.inj_add. lia.
Qed.

(** Taking a value at or above 0.0 from a value in [0.0, 1.0] does not
    make it larger. *)
Lemma SFsub_step_le (x d : spec_float) :
  valid_binary x = true →
  SFleb (S754_zero false) x = true →
  SFleb x (S754_finite false 4503599627370496 (-52)) = true →
  SFleb (S754_zero false) d = true →
  SFleb (SFsub prec emax x d) x = true.
Proof.
  intros Hv H0 H1 Hd.
  destruct x as [sx | sx | | sx mx ex]; try discriminate H0;
    destruct d as [sd | sd | | sd md ed]; try discriminate Hd;
    try (destruct sx; try discriminate H0; try discriminate H1);
    try (destruct sd; try discriminate Hd);
    lazymatch goal with
    | |- context [SFsub _ _ (S754_finite _ _ _) (S754_finite _ _ _)] => idtac
    | |- context [SFsub _ _ (S754_finite _ _ _) (S754_zero _)] =>
        apply SFleb_refl_finite
    | _ => reflexivity
    end.
  clear H0 H1 Hd.
  unfold SFsub, cond_Zopp. set (ez := Z.min ex ed).
  assert (Hez : (ez ≤ ex)%Z) by (subst ez; lia).
  pose proof (shl_align_value mx ex ez Hez) as Ha.
  destruct (Z.pos (shl_align mx ex ez).1 - Z.pos (shl_align md ed ez).1)%Z
    as [| M | M] eqn:EM; unfold binary_normalize.
  - reflexivity.
  - apply binary_round_le; [exact Hv | exact Hez |]. rewrite <- Ha. lia.
  - destruct (binary_round_shape true M ez)
      as [-> | [(m' & e' & ->) | ->]]; reflexivity.
Qed.

(** Taking a value at or above 0.0 from a value that is not at or above
    0.0 (a negative one, or NaN) leaves a value that is not positive. *)
Lemma SFsub_not_positive (x d : spec_float) :
  SFleb (S754_zero false) x = false → SFleb (S754_zero false) d = true →
  SFltb (S754_zero false) (SFsub prec emax x d) = false.
Proof.
  intros Hx Hd.
  destruct x as [sx | sx | | sx mx ex]; try discriminate Hx;
    destruct d as [sd | sd | | sd md ed]; try discriminate Hd;
    try (destruct sx; try discriminate Hx);
    try (destruct sd; try discriminate Hd);
    lazymatch goal with
    | |- context [SFsub _ _ (S754_finite _ _ _) (S754_finite _ _ _)] => idtac
    | _ => reflexivity
    end.
  unfold SFsub, cond_Zopp.
  destruct (- Z.pos (shl_align mx ex (Z.min ex ed)).1
            - Z.pos (shl_align md ed (Z.min ex ed)).1)%Z
    as [| M | M] eqn:EM; unfold binary_normalize; [reflexivity | lia |].
  destruct (binary_round_shape true M (Z.min ex ed))
    as [-> | [(m' & e' & ->) | ->]]; reflexivity.
Qed.

Lemma float_add_step_le (x d : float) :
  PrimFloat.ltb 0 x = true → PrimFloat.leb 0 d = true →
  PrimFloat.leb x (x + d) = true.
Proof.
  rewrite FloatAxioms.ltb_spec, !FloatAxioms.leb_spec, FloatAxioms.add_spec.
  change (Prim2SF 0) with (S754_zero false).
  apply SFadd_step_le. apply Prim2SF_valid.
Qed.

Lemma float_sub_step_le (x d : float) :
  PrimFloat.leb 0 x = true → PrimFloat.leb x 1 = true →
  PrimFloat.leb 0 d = true → PrimFloat.leb (x - d) x = true.
Proof.
  rewrite !FloatAxioms.leb_spec, FloatAxioms.sub_spec.
  change (Prim2SF 0) with (S754_zero false).
  change (Prim2SF 1) with (S754_finite false 4503599627370496 (-52)).
  apply SFsub_step_le. apply Prim2SF_valid.
Qed.

Lemma float_sub_not_positive (x d : float) :
  PrimFloat.leb 0 x = false → PrimFloat.leb 0 d = true →
  PrimFloat.ltb 0 (x - d) = false.
Proof.
  rewrite FloatAxioms.ltb_spec, !FloatAxioms.leb_spec, FloatAxioms.sub_spec.
  change (Prim2SF 0) with (S754_zero false).
  apply SFsub_not_positive.
Qed.

(** binary64 satisfies the laws of the clamping arguments. *)
#[export, refine] Instance float_ArithLaws : ArithLaws float := {|
  leb_0_1 := _
|}.
Proof.
  - reflexivity.
  - exact float_add_nonneg.
  - exact float_sub_le_1.
  - reflexivity.
  - reflexivity.
Qed.

(** ** Order statistics *)

Section Sorting.
Context {T : Type} `{OrderLaws T}.

Lemma leb_refl x : is_number x = true → leb x x = true.
Proof. intros Hx. destruct (leb_total x x Hx Hx); assumption. Qed.

Lemma ltb_irrefl x : ltb x x = false.
Proof.
  destruct (ltb x x) eqn:E; [|reflexivity].
  destruct (ltb_number _ _ E) as [Hx _].
  rewrite (ltb_leb x x Hx Hx), (leb_refl x Hx) in E. discriminate.
Qed.

Lemma ltb_false_leb x y :
  is_number x = true → is_number y = true → ltb x y = false → leb y x = true.
Proof.
  intros Hx Hy. rewrite (ltb_leb x y Hx Hy).
  destruct (leb y x); [reflexivity | discriminate].
Qed.

Lemma leb_ltb_false x y : leb y x = true → ltb x y = false.
Proof.
  intros Hle. destruct (leb_number _ _ Hle) as [Hy Hx].
  rewrite (ltb_leb x y Hx Hy), Hle. reflexivity.
Qed.

Lemma ltb_leb_weak x y : ltb x y = true → leb x y = true.
Proof.
  intros Hlt. destruct (ltb_number _ _ Hlt) as [Hx Hy].
  destruct (leb_total x y Hx Hy) as [Hle|Hle]; [assumption|].
  rewrite (leb_ltb_false _ _ Hle) in Hlt. discriminate.
Qed.

Lemma ltb_leb_trans x y z : ltb x y = true → leb y z = true → ltb x z = true.
Proof.
  intros Hlt Hle. destruct (ltb_number _ _ Hlt) as [Hx Hy].
  destruct (leb_number _ _ Hle) as [_ Hz].
  rewrite (ltb_leb x z Hx Hz). destruct (leb z x) eqn:E; [|reflexivity].
  rewrite (leb_ltb_false x y (leb_trans _ _ _ Hle E)) in Hlt. discriminate.
Qed.

Lemma leb_ltb_trans x y z : leb x y = true → ltb y z = true → ltb x z = true.
Proof.
  intros Hle Hlt. destruct (ltb_number _ _ Hlt) as [Hy Hz].
  destruct (leb_number _ _ Hle) as [Hx _].
  rewrite (ltb_leb x z Hx Hz). destruct (leb z x) eqn:E; [|reflexivity].
  rewrite (leb_ltb_false y z (leb_trans _ _ _ E Hle)) in Hlt. discriminate.
Qed.

Lemma insert_desc_perm x l : Permutation (insert_desc x l) (x :: l).
Proof.
  induction l as [|y l IH]; simpl; [reflexivity|].
  destruct (leb y x); [reflexivity|].
  rewrite IH. apply perm_swap.
Qed.

Lemma sort_desc_perm l : Permutation (sort_desc l) l.
Proof.
  induction l as [|x l IH]; simpl; [reflexivity|].
  rewrite insert_desc_perm, IH. reflexivity.
Qed.

Lemma length_sort_desc l : length (sort_desc l) = length l.
Proof. apply Permutation_length, sort_desc_perm. Qed.

Lemma insert_desc_descending x l :
  is_number x = true → numbers l → descending l → descending (insert_desc x l).
Proof.
  intros Hx. induction l as [|y l IH]; simpl; intros Hn Hd.
  - split; [constructor | exact I].
  - inversion Hn as [|? ? Hy Hn']; subst. destruct Hd as [Hall Hd].
    destruct (leb y x) eqn:E.
    + split; [|split; assumption].
      constructor; [assumption|].
      eapply List.Forall_impl; [|exact Hall].
      intros z Hz. simpl in Hz. eapply leb_trans; eassumption.
    + split; [|apply IH; assumption].
      rewrite insert_desc_perm. constructor; [|assumption].
      destruct (leb_total x y Hx Hy) as [Hle|Hle]; [assumption|congruence].
Qed.

Lemma numbers_perm l l' : Permutation l l' → numbers l → numbers l'.
Proof. intros Hp. unfold numbers. rewrite Hp. auto. Qed.

Lemma sort_desc_descending l : numbers l → descending (sort_desc l).
Proof.
  induction l as [|x l IH]; simpl; intros Hn; [exact I|].
  inversion Hn; subst.
  apply insert_desc_descending; auto.
  eapply numbers_perm; [symmetry; apply sort_desc_perm | assumption].
Qed.

Lemma count_gt_perm x l l' : Permutation l l' → count_gt x l = count_gt x l'.
Proof.
  unfold count_gt. induction 1; simpl; try congruence.
  - destruct (gtb x0 x); simpl; congruence.
  - destruct (gtb x0 x), (gtb y x); reflexivity.
Qed.

Lemma count_ge_perm x l l' : Permutation l l' → count_ge x l = count_ge x l'.
Proof.
  unfold count_ge. induction 1; simpl; try congruence.
  - destruct (geb x0 x); simpl; congruence.
  - destruct (geb x0 x), (geb y x); reflexivity.
Qed.

Lemma count_gt_le_length x l : count_gt x l ≤ length l.
Proof. unfold count_gt. apply filter_length_le. Qed.

(** Nothing at or below [x] lies strictly above it. *)
Lemma count_gt_all_le x l :
  Forall (fun y => leb y x = true) l → count_gt x l = 0.
Proof.
  unfold count_gt. induction 1 as [|y l Hy _ IH]; simpl; [reflexivity|].
  unfold gtb. rewrite (leb_ltb_false _ _ Hy). exact IH.
Qed.

(** In a descending list the entries strictly above [x] are a prefix: the
    entry at position [j] is at or below [x] exactly when at most [j]
    entries lie strictly above [x]. *)
Lemma descending_lookup_count x (s : list T) j m :
  is_number x = true → numbers s → descending s → s !! j = Some m →
  (leb m x = true ↔ count_gt x s ≤ j).
Proof.
  intros Hx. revert j. induction s as [|a s IH]; intros j Hn Hd Hj;
    [discriminate|].
  inversion Hn as [|? ? Ha Hn']; subst. destruct Hd as [Hall Hd].
  destruct (leb a x) eqn:Eax.
  - assert (Hz : count_gt x (a :: s) = 0).
    { apply count_gt_all_le. constructor; [assumption|].
      eapply List.Forall_impl; [|exact Hall]. intros z Hz. simpl in Hz.
      eapply leb_trans; eassumption. }
    rewrite Hz. split; [lia|]. intros _.
    destruct j as [|j]; simpl in Hj.
    + congruence.
    + apply list_elem_of_lookup_2 in Hj. apply list_elem_of_In in Hj.
      rewrite List.Forall_forall in Hall. eapply leb_trans; [apply Hall|]; eassumption.
  - assert (Hgt : gtb a x = true).
    { unfold gtb. rewrite (ltb_leb x a Hx Ha), Eax. reflexivity. }
    assert (Hc : count_gt x (a :: s) = S (count_gt x s)).
    { unfold count_gt. simpl. rewrite Hgt. reflexivity. }
    rewrite Hc. destruct j as [|j]; simpl in Hj.
    + injection Hj as <-. rewrite Eax. split; [discriminate | lia].
    + rewrite (IH j Hn' Hd Hj). lia.
Qed.

(** Dually, the entries at or above [x] are a prefix as well. *)
Lemma descending_lookup_count_ge x (s : list T) j m :
  is_number x = true → numbers s → descending s → s !! j = Some m →
  (leb x m = true ↔ j < count_ge x s).
Proof.
  intros Hx. revert j. induction s as [|a s IH]; intros j Hn Hd Hj;
    [discriminate|].
  inversion Hn as [|? ? Ha Hn']; subst. destruct Hd as [Hall Hd].
  unfold count_ge. simpl. unfold geb at 1. destruct (leb x a) eqn:Exa; simpl.
  - destruct j as [|j]; simpl in Hj.
    + injection Hj as <-. rewrite Exa. split; [lia | reflexivity].
    + fold (count_ge x s). rewrite (IH j Hn' Hd Hj). lia.
  - fold (count_ge x s).
    assert (Hz : count_ge x s = 0).
    { unfold count_ge. clear IH Hj Hn' Hd Hn. induction Hall as [|y l Hy _ IH];
        simpl; [reflexivity|].
      unfold geb at 1. destruct (leb x y) eqn:E; [|exact IH].
      rewrite (leb_trans _ _ _ E Hy) in Exa. discriminate. }
    rewrite Hz. split; [|lia]. intros Hle.
    destruct j as [|j]; simpl in Hj; [congruence|].
    apply list_elem_of_lookup_2 in Hj. apply list_elem_of_In in Hj.
    rewrite List.Forall_forall in Hall.
    rewrite (leb_trans _ _ _ Hle (Hall _ Hj)) in Exa. discriminate.
Qed.

End Sorting.

(** ** The helpers of local inhibition *)

Lemma enumerate_from_In {A} (l : list A) n i x :
  In (i, x) (enumerate_from n l) ↔ n ≤ i ∧ l !! (i - n) = Some x.
Proof.
  revert n. induction l as [|y l IH]; intros n; simpl.
  - split; [tauto | intros [_ Hl]; discriminate].
  - rewrite IH. split.
    + intros [Heq | [Hle Hl]].
      * injection Heq as <- <-. rewrite Nat.sub_diag. auto.
      * split; [lia|]. replace (i - n) with (S (i - S n)) by lia. exact Hl.
    + intros [Hle Hl]. destruct (decide (i = n)) as [->|Hne].
      * rewrite Nat.sub_diag in Hl. simpl in Hl. left. congruence.
      * right. split; [lia|].
        replace (i - n) with (S (i - S n)) in Hl by lia. exact Hl.
Qed.

Lemma enumerate_In {A} (l : list A) i x :
  In (i, x) (enumerate_from 0 l) ↔ l !! i = Some x.
Proof.
  rewrite enumerate_from_In, Nat.sub_0_r. split; [tauto | auto with lia].
Qed.

Lemma length_enumerate_from {A} (l : list A) n :
  length (enumerate_from n l) = length l.
Proof. revert n. induction l; intros; simpl; auto. Qed.

Section Selection.
Context {T : Type} `{OrderLaws T}.
Variable adjacent : nat → nat → bool.

Implicit Types (columns : list (Column T)) (c : Column T).

(** A column belongs to its own neighbourhood. *)
Lemma getNeighbors_self columns i c :
  columns !! i = Some c → In c (getNeighbors adjacent columns i).
Proof.
  intros Hi. unfold getNeighbors. apply in_map_iff. exists (i, c).
  split; [reflexivity|]. apply filter_In. split.
  - apply enumerate_In, Hi.
  - unfold inNeighborhood. simpl. rewrite Nat.eqb_refl. reflexivity.
Qed.

(** Its members are columns of the region, within the radius or the
    column itself. *)
Lemma getNeighbors_In columns i c' :
  In c' (getNeighbors adjacent columns i) ↔
  ∃ j, columns !! j = Some c' ∧ (j = i ∨ adjacent i j = true).
Proof.
  unfold getNeighbors. rewrite in_map_iff. split.
  - intros [[j d] [Hd Hin]]. simpl in Hd. subst d.
    apply filter_In in Hin. destruct Hin as [Hin Hnb].
    exists j. split; [apply enumerate_In, Hin|].
    unfold inNeighborhood in Hnb. simpl in Hnb.
    apply orb_true_iff in Hnb. rewrite Nat.eqb_eq in Hnb. exact Hnb.
  - intros [j [Hj Hnb]]. exists (j, c'). split; [reflexivity|].
    apply filter_In. split; [apply enumerate_In, Hj|].
    unfold inNeighborhood. simpl. apply orb_true_iff.
    rewrite Nat.eqb_eq. exact Hnb.
Qed.

Lemma kthScore_defined (cs : list (Column T)) k :
  is_Some (kthScore cs k) ↔ 1 ≤ k ≤ length cs.
Proof.
  unfold kthScore. destruct k as [|j].
  - split; [intros [? ?]; discriminate | lia].
  - rewrite lookup_lt_is_Some, length_sort_desc, length_map. lia.
Qed.

Lemma kthScore_member (cs : list (Column T)) k m :
  kthScore cs k = Some m → In m (map getOverlap cs).
Proof.
  unfold kthScore. destruct k as [|j]; [discriminate|]. intros Hj.
  apply list_elem_of_lookup_2, list_elem_of_In in Hj.
  eapply Permutation_in; [apply sort_desc_perm | exact Hj].
Qed.

(** An overlap reaches the k-th score exactly when fewer than k of the
    given columns have a strictly larger overlap. *)
Lemma kthScore_geb_count (cs : list (Column T)) k m x :
  numbers (map getOverlap cs) → is_number x = true →
  kthScore cs k = Some m →
  (geb x m = true ↔ count_gt x (map getOverlap cs) < k).
Proof.
  intros Hn Hx. unfold kthScore. destruct k as [|j]; [discriminate|].
  intros Hj. unfold geb.
  rewrite (descending_lookup_count x _ j m Hx
             (numbers_perm _ _ (Permutation_sym (sort_desc_perm _)) Hn)
             (sort_desc_descending _ Hn) Hj).
  rewrite (count_gt_perm x _ _ (sort_desc_perm _)). lia.
Qed.

(** The k-th score is the k-th largest overlap: it is one of the overlaps,
    fewer than k overlaps lie strictly above it, and at least k lie at or
    above it. *)
Lemma kthScore_rank (cs : list (Column T)) k m :
  numbers (map getOverlap cs) → kthScore cs k = Some m →
  In m (map getOverlap cs) ∧
  count_gt m (map getOverlap cs) < k ≤ count_ge m (map getOverlap cs).
Proof.
  intros Hn Hk. pose proof (kthScore_member _ _ _ Hk) as Hin.
  assert (Hm : is_number m = true).
  { unfold numbers in Hn. rewrite List.Forall_forall in Hn. auto. }
  split; [assumption|]. split.
  - apply (kthScore_geb_count cs k m m Hn Hm Hk). unfold geb.
    apply leb_refl, Hm.
  - unfold kthScore in Hk. destruct k as [|j]; [discriminate|].
    rewrite <- (count_ge_perm m _ _ (sort_desc_perm _)).
    apply Nat.le_succ_l.
    apply (descending_lookup_count_ge m _ j m Hm
             (numbers_perm _ _ (Permutation_sym (sort_desc_perm _)) Hn)
             (sort_desc_descending _ Hn) Hk).
    apply leb_refl, Hm.
Qed.

(** The loop returns normally exactly when the k-th score is defined for
    every column it does not skip, and then it returns the selected
    positions in order. *)
Lemma selectColumns_Return columns k todo :
  (∀ i c, In (i, c) todo → gtb (getOverlap c) lit_0_0 = true →
     is_Some (kthScore (getNeighbors adjacent columns i) k)) →
  selectColumns adjacent columns k todo =
  Return (map fst (List.filter (selected adjacent columns k) todo)).
Proof.
  induction todo as [|[i c] todo IH]; intros Hdef; simpl; [reflexivity|].
  unfold selected at 1. simpl.
  rewrite IH by (intros; eapply Hdef; [right|]; eassumption).
  destruct (gtb (getOverlap c) lit_0_0) eqn:Epos; simpl; [|reflexivity].
  destruct (Hdef i c (or_introl eq_refl) Epos) as [m ->].
  destruct (geb (getOverlap c) m); reflexivity.
Qed.

Lemma selectColumns_Return_inv columns k todo act :
  selectColumns adjacent columns k todo = Return act →
  ∀ i c, In (i, c) todo → gtb (getOverlap c) lit_0_0 = true →
    is_Some (kthScore (getNeighbors adjacent columns i) k).
Proof.
  revert act. induction todo as [|[i c] todo IH]; intros act; simpl;
    [tauto|].
  intros Hret j d [Heq | Hin] Hpos.
  - injection Heq as <- <-. rewrite Hpos in Hret. simpl in Hret.
    destruct (kthScore _ _); [eauto | discriminate].
  - destruct (gtb (getOverlap c) lit_0_0); simpl in Hret; [|eauto].
    destruct (kthScore (getNeighbors adjacent columns i) k);
      [|discriminate].
    destruct (selectColumns adjacent columns k todo) eqn:E; [|discriminate].
    eapply IH; eauto.
Qed.

Lemma selectColumns_Raise columns k todo e :
  selectColumns adjacent columns k todo = Raise e → e = KthScoreUndefined.
Proof.
  induction todo as [|[i c] todo IH]; simpl; [discriminate|].
  destruct (gtb (getOverlap c) lit_0_0); simpl; [|exact IH].
  destruct (kthScore _ _); [|congruence].
  destruct (selectColumns adjacent columns k todo); [discriminate|].
  intros Heq. apply IH. congruence.
Qed.

(** A normal return of [findActiveColumns]: the k-th score was defined
    wherever it was asked for, and the selected positions are stored
    under [t]. *)
Lemma findActiveColumns_returns columns t k (log log1 : gmap Z (list nat)) :
  findActiveColumns adjacent columns t k log = (log1, None) →
  (∀ i c, In (i, c) (enumerate_from 0 columns) →
     gtb (getOverlap c) lit_0_0 = true →
     is_Some (kthScore (getNeighbors adjacent columns i) k)) ∧
  log1 = <[t := map fst (List.filter (selected adjacent columns k)
                           (enumerate_from 0 columns))]> log.
Proof.
  unfold findActiveColumns. intros Hrun.
  destruct (selectColumns adjacent columns k (enumerate_from 0 columns))
    as [a|e] eqn:Esel; [|discriminate].
  injection Hrun as <-.
  pose proof (selectColumns_Return_inv _ _ _ _ Esel) as Hdef.
  rewrite (selectColumns_Return _ _ _ Hdef) in Esel.
  injection Esel as <-. split; [exact Hdef | reflexivity].
Qed.

End Selection.

Section SelectionFacts.
Context {T : Type} `{OrderLaws T}.
Variable adjacent : nat → nat → bool.

Implicit Types (columns : list (Column T)) (c : Column T).

Lemma numbers_neighbors columns i :
  numbers (map getOverlap columns) →
  numbers (map getOverlap (getNeighbors adjacent columns i)).
Proof.
  unfold numbers. rewrite !List.Forall_forall. intros Hn x Hx.
  apply in_map_iff in Hx. destruct Hx as [c [<- Hc]].
  apply getNeighbors_In in Hc. destruct Hc as [j [Hj _]].
  apply Hn, in_map, list_elem_of_In, list_elem_of_lookup_2 with j, Hj.
Qed.

Lemma In_selected columns k i :
  In i (map fst (List.filter (selected adjacent columns k)
                   (enumerate_from 0 columns))) ↔
  ∃ c, columns !! i = Some c ∧ selected adjacent columns k (i, c) = true.
Proof.
  rewrite in_map_iff. split.
  - intros [[j c] [Hj Hin]]. simpl in Hj. subst j.
    apply filter_In in Hin. destruct Hin as [Hin Hsel].
    exists c. split; [apply enumerate_In, Hin | exact Hsel].
  - intros [c [Hc Hsel]]. exists (i, c). split; [reflexivity|].
    apply filter_In. split; [apply enumerate_In, Hc | exact Hsel].
Qed.

Lemma count_gt_neighbors columns i x :
  count_gt x (map getOverlap (getNeighbors adjacent columns i)) =
  length (List.filter
            (fun jc => inNeighborhood adjacent i jc
                       && gtb (getOverlap (snd jc)) x)
            (enumerate_from 0 columns)).
Proof.
  unfold count_gt, getNeighbors.
  induction (enumerate_from 0 columns) as [|jc E IH]; simpl; [reflexivity|].
  destruct (inNeighborhood adjacent i jc); simpl; [|exact IH].
  destruct (gtb (getOverlap jc.2) x); simpl; congruence.
Qed.

Lemma length_neighbors columns i :
  length (getNeighbors adjacent columns i) =
  length (List.filter (inNeighborhood adjacent i) (enumerate_from 0 columns)).
Proof. unfold getNeighbors. apply length_map. Qed.

(** Two regions compared position by position. *)
Lemma filter_length_pointwise {A} (P Q : nat * A → bool) (l l' : list A) n :
  length l = length l' →
  (∀ j a a', l !! j = Some a → l' !! j = Some a' →
     P (n + j, a') = true → Q (n + j, a) = true) →
  length (List.filter P (enumerate_from n l')) ≤
  length (List.filter Q (enumerate_from n l)).
Proof.
  revert l' n. induction l as [|a l IH]; intros [|a' l'] n Hlen Hpq;
    simpl in *; try discriminate; [lia|].
  assert (IH' := IH l' (S n) ltac:(lia)
    ltac:(intros j b b' Hb Hb'; replace (S n + j) with (n + S j) by lia;
          apply (Hpq (S j) b b' Hb Hb'))).
  pose proof (Hpq 0 a a' eq_refl eq_refl) as Hhd.
  rewrite Nat.add_0_r in Hhd.
  destruct (P (n, a')); simpl.
  - rewrite Hhd by reflexivity. simpl. lia.
  - destruct (Q (n, a)); simpl; lia.
Qed.

(** Changing one column's overlap changes no neighbourhood's size. *)
Lemma length_neighbors_setOverlap columns i c o j :
  columns !! i = Some c →
  length (getNeighbors adjacent (<[i := setOverlap c o]> columns) j) =
  length (getNeighbors adjacent columns j).
Proof.
  intros Hi. rewrite !length_neighbors. apply Nat.le_antisymm;
    apply filter_length_pointwise;
    rewrite ?length_insert; try reflexivity;
    intros; assumption.
Qed.

(** Raising the overlap of the column at [i] does not raise the number of
    its neighbours that lie strictly above it. *)
Lemma count_gt_neighbors_raise columns i c o :
  columns !! i = Some c → leb (getOverlap c) o = true →
  count_gt o (map getOverlap
                (getNeighbors adjacent (<[i := setOverlap c o]> columns) i)) ≤
  count_gt (getOverlap c) (map getOverlap (getNeighbors adjacent columns i)).
Proof.
  intros Hi Hle. rewrite !count_gt_neighbors.
  apply filter_length_pointwise; [rewrite length_insert; reflexivity|].
  intros j a a' Ha Ha'. simpl. unfold inNeighborhood. simpl.
  destruct (decide (j = i)) as [->|Hne].
  - rewrite list_lookup_insert_eq in Ha' by (eapply lookup_lt_Some; eassumption).
    injection Ha' as <-. simpl. unfold gtb. rewrite ltb_irrefl.
    rewrite andb_false_r. discriminate.
  - rewrite list_lookup_insert_ne in Ha' by congruence.
    assert (a' = a) by congruence. subst a'.
    rewrite !andb_true_iff. intros [Hnb Hgt]. split; [assumption|].
    unfold gtb in *. eapply leb_ltb_trans; eassumption.
Qed.

End SelectionFacts.

(** ** Active-column selection *)

(** C2.  When the k-th score is defined for every column the loop does not
    skip, [findActiveColumns] returns normally and records at [t] a list
    [act] such that, for the column [c] at each position [i]: [c] is a
    member of its own neighbourhood; if [c]'s overlap is strictly positive,
    then [i] is in [act] exactly when the overlap is at or above the k-th
    score [m] of the neighbourhood, where [m] is the k-th largest overlap
    there (one of the overlaps, with fewer than k strictly above and at
    least k at or above, so every column tied at [m] is selected); and a
    column whose overlap is not strictly positive, in particular one whose
    overlap is 0, is not in [act]. *)
Theorem findActiveColumns_selects {T : Type} `{OrderLaws T}
    (adjacent : nat → nat → bool) (columns : list (Column T)) (t : Z)
    (k : nat) (log : gmap Z (list nat)) :
  numbers (map getOverlap columns) →
  (∀ i c, columns !! i = Some c → gtb (getOverlap c) lit_0_0 = true →
     1 ≤ k ≤ length (getNeighbors adjacent columns i)) →
  ∃ act,
    findActiveColumns adjacent columns t k log = (<[t := act]> log, None) ∧
    (∀ i, In i act → is_Some (columns !! i)) ∧
    ∀ i c, columns !! i = Some c →
      In c (getNeighbors adjacent columns i) ∧
      (gtb (getOverlap c) lit_0_0 = true →
       ∃ m, kthScore (getNeighbors adjacent columns i) k = Some m ∧
            In m (map getOverlap (getNeighbors adjacent columns i)) ∧
            count_gt m (map getOverlap (getNeighbors adjacent columns i)) < k ∧
            k ≤ count_ge m (map getOverlap (getNeighbors adjacent columns i)) ∧
            (In i act ↔ geb (getOverlap c) m = true)) ∧
      (gtb (getOverlap c) lit_0_0 = false → ¬ In i act) ∧
      (getOverlap c = lit_0_0 → ¬ In i act).
Proof.
  intros Hn Hk.
  exists (map fst (List.filter (selected adjacent columns k)
                     (enumerate_from 0 columns))).
  assert (Hskip : ∀ i c, columns !! i = Some c →
            gtb (getOverlap c) lit_0_0 = false →
            ¬ In i (map fst (List.filter (selected adjacent columns k)
                               (enumerate_from 0 columns)))).
  { intros i c Hi Hpos Hin. apply In_selected in Hin.
    destruct Hin as [c' [Hi' Hsel]]. assert (c' = c) by congruence. subst c'.
    unfold selected in Hsel. simpl in Hsel. rewrite Hpos in Hsel.
    discriminate. }
  split; [|split].
  - unfold findActiveColumns. rewrite selectColumns_Return; [reflexivity|].
    intros i c Hin Hpos. apply kthScore_defined, (Hk i c); [|assumption].
    apply enumerate_In, Hin.
  - intros i Hin. apply In_selected in Hin. destruct Hin as [c [Hi _]]. eauto.
  - intros i c Hi. split; [apply getNeighbors_self, Hi|]. split; [|split].
    + intros Hpos.
      destruct (proj2 (kthScore_defined _ _) (Hk i c Hi Hpos)) as [m Hm].
      exists m. split; [assumption|].
      destruct (kthScore_rank _ _ _ (numbers_neighbors adjacent _ i Hn) Hm)
        as [Hin [Hgt Hge]].
      repeat split; try assumption.
      * intros Hact. apply In_selected in Hact.
        destruct Hact as [c' [Hi' Hsel]]. assert (c' = c) by congruence.
        subst c'. unfold selected in Hsel. simpl in Hsel.
        rewrite Hpos, Hm in Hsel. exact Hsel.
      * intros Hgeb. apply In_selected. exists c. split; [assumption|].
        unfold selected. simpl. rewrite Hpos, Hm. exact Hgeb.
    + apply Hskip, Hi.
    + intros Hzero. apply (Hskip i c Hi). unfold gtb. rewrite Hzero.
      apply ltb_irrefl.
Qed.

(** C8.  If the column at position [i] is in the list recorded at [t], then
    after its overlap is raised to any [o'] at or above the old one, every
    other column left as it was, [findActiveColumns] again returns normally
    and the list it records at [t] still contains [i]. *)
Theorem findActiveColumns_monotone {T : Type} `{OrderLaws T}
    (adjacent : nat → nat → bool) (columns : list (Column T)) (t : Z)
    (k : nat) (log log1 : gmap Z (list nat)) (i : nat) (c : Column T)
    (o' : T) (act : list nat) :
  numbers (map getOverlap columns) →
  columns !! i = Some c →
  leb (getOverlap c) o' = true →
  findActiveColumns adjacent columns t k log = (log1, None) →
  log1 !! t = Some act → In i act →
  ∃ act',
    findActiveColumns adjacent (<[i := setOverlap c o']> columns) t k log
    = (<[t := act']> log, None) ∧ In i act'.
Proof.
  intros Hn Hi Hle Hrun Hact Hin.
  destruct (findActiveColumns_returns adjacent _ _ _ _ _ Hrun) as [Hdef ->].
  rewrite lookup_insert_eq in Hact. injection Hact as <-.
  apply In_selected in Hin. destruct Hin as [c0 [Hi0 Hsel]].
  assert (c0 = c) by congruence. subst c0.
  unfold selected in Hsel. simpl in Hsel.
  apply andb_true_iff in Hsel. destruct Hsel as [Hpos Hsel].
  destruct (kthScore (getNeighbors adjacent columns i) k) as [m|] eqn:Em;
    [|discriminate].
  destruct (leb_number _ _ Hle) as [Ho Ho'].
  set (columns' := <[i := setOverlap c o']> columns).
  assert (Hi' : columns' !! i = Some (setOverlap c o')).
  { apply list_lookup_insert_eq. eapply lookup_lt_Some, Hi. }
  assert (Hn' : numbers (map getOverlap columns')).
  { unfold numbers, columns'. rewrite list_fmap_insert.
    apply Forall_insert; assumption. }
  assert (Hdef' : ∀ j d, In (j, d) (enumerate_from 0 columns') →
            gtb (getOverlap d) lit_0_0 = true →
            is_Some (kthScore (getNeighbors adjacent columns' j) k)).
  { intros j d Hj Hd. apply enumerate_In in Hj.
    apply kthScore_defined. unfold columns'.
    rewrite (length_neighbors_setOverlap adjacent columns i c o' j Hi).
    apply kthScore_defined. destruct (decide (j = i)) as [->|Hne].
    - rewrite Em. eauto.
    - unfold columns' in Hj. rewrite list_lookup_insert_ne in Hj by congruence.
      apply (Hdef j d); [apply enumerate_In, Hj | assumption]. }
  eexists. split.
  - unfold findActiveColumns. fold columns'.
    rewrite (selectColumns_Return adjacent _ _ _ Hdef'). reflexivity.
  - apply In_selected. exists (setOverlap c o'). split; [exact Hi'|].
    unfold selected. simpl.
    assert (Hpos' : gtb o' lit_0_0 = true).
    { unfold gtb in *. eapply ltb_leb_trans; eassumption. }
    rewrite Hpos'. simpl.
    destruct (Hdef' i _ (proj2 (enumerate_In _ _ _) Hi') Hpos') as [m' Em'].
    rewrite Em'.
    apply (kthScore_geb_count _ k m' o'
             (numbers_neighbors adjacent _ i Hn') Ho' Em').
    eapply Nat.le_lt_trans;
      [apply (count_gt_neighbors_raise adjacent columns i c o' Hi Hle)|].
    apply (kthScore_geb_count _ k m (getOverlap c)
             (numbers_neighbors adjacent _ i Hn) Ho Em).
    exact Hsel.
Qed.

(** ** Connected synapses and overlap *)

Section Overlap.
Context {T : Type} `{PyNum T}.
Variable inputVector : Z → list bool.

Implicit Types (c : Column T) (s : Synapse T).

(** [getConnectedSynapses] returns (the empty list) for a column without
    synapses and raises for every other column. *)
Lemma getConnectedSynapses_no_synapses c :
  synapses c = [] → getConnectedSynapses c = Return [].
Proof. unfold getConnectedSynapses. intros ->. reflexivity. Qed.

Lemma getConnectedSynapses_raises c :
  synapses c ≠ [] → getConnectedSynapses c = Raise AttributeError.
Proof.
  unfold getConnectedSynapses. destruct (synapses c) as [|s ss];
    [congruence | reflexivity].
Qed.

Lemma getConnectedSynapses_Return c objs :
  getConnectedSynapses c = Return objs → synapses c = [] ∧ objs = [].
Proof.
  destruct (synapses c) as [|s ss] eqn:E.
  - rewrite (getConnectedSynapses_no_synapses c E). intros [= <-]. auto.
  - rewrite getConnectedSynapses_raises by (rewrite E; discriminate).
    discriminate.
Qed.

(** The spec's sequence holds synapses only, and exactly the connected
    ones. *)
Lemma connectedSynapses_spec_In c o :
  (∃ objs, connectedSynapses_spec c = Return objs ∧ In o objs) ↔
  ∃ s, o = PySynapse s ∧ In s (synapses c) ∧ isConnnected s = true.
Proof.
  unfold connectedSynapses_spec. split.
  - intros [objs [[= <-] Ho]]. apply in_map_iff in Ho as [s [<- Hs]].
    apply filter_In in Hs. eauto.
  - intros [s [-> Hs]]. eexists. split; [reflexivity|].
    apply in_map_iff. exists s. split; [reflexivity|].
    apply filter_In. exact Hs.
Qed.

(** In a column that has a synapse [findOverlap] gets no further than the
    call of [getConnectedSynapses]. *)
Lemma overlapOfColumn_raises t minOverlap c :
  synapses c ≠ [] →
  overlapOfColumn inputVector getConnectedSynapses t minOverlap c
  = (setOverlap c lit_0_0, Some AttributeError).
Proof.
  intros Hne. unfold overlapOfColumn.
  rewrite getConnectedSynapses_raises by exact Hne. reflexivity.
Qed.

Lemma overlapOfColumn_no_synapses t minOverlap c :
  synapses c = [] →
  overlapOfColumn inputVector getConnectedSynapses t minOverlap c
  = (if ltb lit_0_0 minOverlap then setOverlap c lit_0_0
     else setOverlap c (mul lit_0_0 (boost c)), None).
Proof.
  intros Hnil. unfold overlapOfColumn.
  rewrite getConnectedSynapses_no_synapses by exact Hnil. simpl.
  unfold getOverlap, boostOverlap. simpl.
  destruct (ltb lit_0_0 minOverlap); reflexivity.
Qed.

Lemma findOverlap_length connected (columns : list (Column T)) t minOverlap :
  length (findOverlap_with inputVector connected columns t minOverlap).1
  = length columns.
Proof.
  induction columns as [|c rest IH]; simpl; [reflexivity|].
  destruct (overlapOfColumn inputVector connected t minOverlap c)
    as [c' [e|]]; simpl; [reflexivity|].
  destruct (findOverlap_with inputVector connected rest t minOverlap)
    as [rest' r]. simpl in *. congruence.
Qed.

(** With the spec's sequence and every index inside the input, the inner
    loop adds up the source bits of the connected synapses. *)
Lemma addSourceInputs_sumBits (ss : list (Synapse T)) bits t c :
  Forall2 (fun s b => (0 ≤ getIndex s)%Z ∧
             inputVector t !! Z.to_nat (getIndex s) = Some b) ss bits →
  addSourceInputs inputVector (map PySynapse ss) t c
  = (setOverlap c (sumBits bits (getOverlap c)), None).
Proof.
  intros Hall. revert c.
  induction Hall as [|s b ss bits [Hs Hb] _ IH]; intros c; simpl.
  - destruct c; reflexivity.
  - unfold getSourceInput. rewrite (proj2 (Z.ltb_ge _ _) Hs), Hb. simpl.
    rewrite IH. reflexivity.
Qed.

Lemma overlapOfColumn_spec t minOverlap c bits :
  Forall2 (fun s b => (0 ≤ getIndex s)%Z ∧
             inputVector t !! Z.to_nat (getIndex s) = Some b)
    (List.filter isConnnected (synapses c)) bits →
  overlapOfColumn inputVector connectedSynapses_spec t minOverlap c
  = (setOverlap c
       (if ltb (sumBits bits lit_0_0) minOverlap then lit_0_0
        else mul (sumBits bits lit_0_0) (boost c)), None).
Proof.
  intros Hall. unfold overlapOfColumn, connectedSynapses_spec. simpl.
  rewrite (addSourceInputs_sumBits _ bits t _ Hall). simpl.
  destruct (ltb (sumBits bits lit_0_0) minOverlap); reflexivity.
Qed.

(** Every index inside the input: the reads of a list of synapses all
    succeed. *)
Lemma readable_bits (ss : list (Synapse T)) t :
  Forall (fun s => (0 ≤ getIndex s < Z.of_nat (length (inputVector t)))%Z)
    ss →
  ∃ bits,
    Forall2 (fun s b => (0 ≤ getIndex s)%Z ∧
               inputVector t !! Z.to_nat (getIndex s) = Some b) ss bits.
Proof.
  induction 1 as [|s ss Hs _ [bits IH]]; [exists []; constructor|].
  destruct (lookup_lt_is_Some_2 (inputVector t) (Z.to_nat (getIndex s)))
    as [b Hb]; [lia|].
  exists (b :: bits). constructor; [split; [lia | exact Hb] | exact IH].
Qed.

(** Over the spec's sequence, with every connected synapse's index inside
    the input, the whole call returns normally and every column ends with
    the overlap of the claim: 0.0 when the sum of the source bits of its
    connected synapses is below [minOverlap], that sum times the boost
    otherwise. *)
Lemma findOverlap_with_spec_overlaps (columns : list (Column T)) t minOverlap :
  Forall (fun c =>
            Forall (fun s =>
                      (0 ≤ getIndex s < Z.of_nat (length (inputVector t)))%Z)
              (List.filter isConnnected (synapses c))) columns →
  ∃ columns',
    findOverlap_with inputVector connectedSynapses_spec columns t minOverlap
    = (columns', None) ∧
    Forall2
      (fun c c' =>
         ∃ bits,
           Forall2 (fun s b => (0 ≤ getIndex s)%Z ∧
                      inputVector t !! Z.to_nat (getIndex s) = Some b)
             (List.filter isConnnected (synapses c)) bits ∧
           c' = setOverlap c
                  (if ltb (sumBits bits lit_0_0) minOverlap then lit_0_0
                   else mul (sumBits bits lit_0_0) (boost c)))
      columns columns'.
Proof.
  induction 1 as [|c rest Hc _ [rest' [Hrest Hall]]]; simpl.
  - exists []. split; [reflexivity | constructor].
  - destruct (readable_bits _ t Hc) as [bits Hbits].
    rewrite (overlapOfColumn_spec t minOverlap c bits Hbits), Hrest.
    eexists. split; [reflexivity|].
    constructor; [exists bits; split; [exact Hbits | reflexivity] | exact Hall].
Qed.

End Overlap.

Section OverlapClaims.
Context {T : Type} `{PyNum T}.
Variable inputVector : Z → list bool.

Implicit Types (c : Column T) (s : Synapse T).

(** What [getConnectedSynapses] does differs from the spec's sequence for
    every column that has a synapse. *)
Lemma getConnectedSynapses_not_spec c :
  synapses c ≠ [] → getConnectedSynapses c ≠ connectedSynapses_spec c.
Proof.
  intros Hne. rewrite (getConnectedSynapses_raises c Hne).
  unfold connectedSynapses_spec. discriminate.
Qed.

(** The only exception [findOverlap] ends with is line 80's. *)
Lemma findOverlap_error (columns : list (Column T)) t minOverlap e :
  (findOverlap inputVector columns t minOverlap).2 = Some e →
  e = AttributeError.
Proof.
  unfold findOverlap.
  induction columns as [|c rest IH]; simpl; [discriminate|].
  destruct (synapses c) as [|s0 ss] eqn:Ec.
  - rewrite (overlapOfColumn_no_synapses _ _ _ _ Ec).
    destruct (findOverlap_with inputVector getConnectedSynapses rest t
                minOverlap) as [rest' r]. simpl in *. exact IH.
  - rewrite overlapOfColumn_raises by (rewrite Ec; discriminate).
    simpl. congruence.
Qed.

End OverlapClaims.

(** C1.  On the region of scenario 1 (one column, boost 1.0, one connected
    synapse reading input bit 1, [minOverlap] 0) [findOverlap] leaves the
    overlap at 0.0 and ends with [AttributeError]; iterating over the
    spec's connected synapses instead, the same loop returns normally with
    the overlap 1.0 * 1.0 that the claim describes. *)
Theorem findOverlap_scenario1 :
  findOverlap example_input [scenario1_column] 0%Z 0%float
  = ([setOverlap scenario1_column 0%float], Some AttributeError) ∧
  findOverlap_with example_input connectedSynapses_spec [scenario1_column]
    0%Z 0%float
  = ([setOverlap scenario1_column (1 * 1)%float], None).
Proof. split; reflexivity. Qed.

(** C4.  For a column with a connected synapse (permanence 0.5) and an
    unconnected one (permanence 0.0), [getConnectedSynapses] raises
    [AttributeError] and hands back nothing, where the spec's sequence is
    the one connected synapse; and whenever [getConnectedSynapses] does
    return, for any column, what it returns is the empty list: it never
    yields a synapse. *)
Theorem getConnectedSynapses_yields_no_synapse :
  getConnectedSynapses two_synapse_column = Raise AttributeError ∧
  connectedSynapses_spec two_synapse_column
  = Return [PySynapse (mkSynapse false 0%Z 0.5%float)] ∧
  (∀ (T : Type) (N : PyNum T) (c : Column T) objs,
     getConnectedSynapses c = Return objs → synapses c = [] ∧ objs = []).
Proof.
  split; [reflexivity | split; [reflexivity |]].
  intros T N c objs. apply getConnectedSynapses_Return.
Qed.

(** [findOverlap] never looks at the input: its result is the same for any
    two encoders and any two timesteps. *)
Lemma findOverlap_input_free {T : Type} `{PyNum T}
    (inputVector inputVector' : Z → list bool) (columns : list (Column T))
    t t' minOverlap :
  findOverlap inputVector columns t minOverlap
  = findOverlap inputVector' columns t' minOverlap.
Proof.
  unfold findOverlap. induction columns as [|c rest IH]; simpl; [reflexivity|].
  destruct (synapses c) as [|s0 ss] eqn:Ec.
  - rewrite !(overlapOfColumn_no_synapses _ _ _ _ Ec), IH. reflexivity.
  - rewrite !overlapOfColumn_raises by (rewrite Ec; discriminate).
    reflexivity.
Qed.

(** C7.  [findOverlap] reads no input bit: its result does not depend on
    the input vectors or on the timestep, and the only exception it ends
    with is [AttributeError].  On a column whose one synapse (permanence
    0.5) has index 5, with the one-bit input, it ends with [AttributeError]
    and the overlap 0.0, where the read of the claim fails with
    [OutOfRangeError] (so does the loop over the spec's sequence); on the
    column of scenario 1 (index 0, bit 1) the read of the claim returns 1.0,
    and [findOverlap] ends in the same way. *)
Theorem findOverlap_reads_no_input :
  (∀ (T : Type) (N : PyNum T) (inputVector inputVector' : Z → list bool)
     (columns : list (Column T)) t t' minOverlap,
     findOverlap inputVector columns t minOverlap
     = findOverlap inputVector' columns t' minOverlap) ∧
  (∀ (T : Type) (N : PyNum T) (inputVector : Z → list bool)
     (columns : list (Column T)) t minOverlap e,
     (findOverlap inputVector columns t minOverlap).2 = Some e →
     e = AttributeError) ∧
  findOverlap example_input [far_index_column] 0%Z 0%float
  = ([setOverlap far_index_column 0%float], Some AttributeError) ∧
  getSourceInput (mkSynapse false 5%Z 0.5%float) (example_input 0%Z)
  = Raise OutOfRangeError ∧
  findOverlap_with example_input connectedSynapses_spec [far_index_column]
    0%Z 0%float
  = ([setOverlap far_index_column 0%float], Some OutOfRangeError) ∧
  getSourceInput (mkSynapse false 0%Z 0.5%float) (example_input 0%Z)
  = Return 1%float ∧
  (findOverlap example_input [scenario1_column] 0%Z 0%float).2
  = Some AttributeError.
Proof.
  split; [intros; apply findOverlap_input_free |].
  split; [intros T N inputVector columns t minOverlap e;
          apply findOverlap_error |].
  repeat split; reflexivity.
Qed.

(** ** Permanence *)

Section Permanence.
Context {T : Type} `{OrderLaws T}.

Implicit Types (s : Synapse T).

(** Whatever the permanence and the step, [incPerm] never leaves the
    permanence above 1.0 and [decPerm] never leaves it below 0.0. *)
Lemma incPerm_not_above_1 s inc :
  gtb (permanence (incPerm s inc)) lit_1_0 = false.
Proof.
  unfold incPerm. simpl.
  destruct (gtb (add (permanence s) inc) lit_1_0) eqn:E; [|exact E].
  apply ltb_irrefl.
Qed.

Lemma decPerm_not_below_0 s dec :
  ltb (permanence (decPerm s dec)) lit_0_0 = false.
Proof.
  unfold decPerm. simpl.
  destruct (ltb (sub (permanence s) dec) lit_0_0) eqn:E; [|exact E].
  apply ltb_irrefl.
Qed.

(** C9.  [isConnnected] answers true exactly when the permanence is
    strictly greater than [CONNECTED_PERM], the 0.2 of line 13, and it
    answers false when the permanence equals [CONNECTED_PERM]. *)
Theorem isConnnected_strict s :
  (isConnnected s = true ↔ ltb CONNECTED_PERM (permanence s) = true) ∧
  (permanence s = CONNECTED_PERM → isConnnected s = false) ∧
  CONNECTED_PERM = lit_0_2.
Proof.
  split; [reflexivity|]. split; [|reflexivity].
  intros Heq. unfold isConnnected, isConnnected_with, gtb. rewrite Heq.
  apply ltb_irrefl.
Qed.

(** A new synapse is inactive, has permanence 0.0, and is connected under
    no threshold at or above 0. *)
Lemma Synapse_init_not_connected (i : Z) (connected_perm : T) :
  leb lit_0_0 connected_perm = true →
  permanence (Synapse_init i) = lit_0_0 ∧
  isactive (Synapse_init i) = false ∧
  isConnnected_with connected_perm (Synapse_init i) = false.
Proof.
  intros Hthr. split; [reflexivity|]. split; [reflexivity|].
  unfold isConnnected_with, gtb. simpl. apply leb_ltb_false, Hthr.
Qed.

End Permanence.

(** Binary64 runs: the boundary of C9, and scenario 5. *)
Example isConnnected_at_threshold :
  isConnnected (mkSynapse false 0%Z 0.2%float) = false ∧
  isConnnected (mkSynapse false 0%Z 0.21%float) = true ∧
  @CONNECTED_PERM float _ = 0.2%float.
Proof. repeat split; reflexivity. Qed.

Example incPerm_scenario5 :
  permanence (incPerm (mkSynapse false 0%Z 0.95%float) 0.1%float) = 1%float.
Proof. reflexivity. Qed.

(** C3, as stated, fails: a direct set stores its argument as it is, so
    [setPermanence(5.0)] leaves the permanence at 5.0; and from a
    permanence set to -3.0, [incPerm()] yields -2.9, below 0. *)
Lemma setPermanence_not_clamped :
  permanence (setPermanence (Synapse_init 0%Z) 5%float) = 5%float ∧
  ¬ in_unit_interval (permanence (setPermanence (Synapse_init 0%Z) 5%float)) ∧
  ¬ in_unit_interval
      (permanence (incPerm (setPermanence (Synapse_init 0%Z) (-3)%float)
                     PERMANENCE_INC)).
Proof.
  split; [reflexivity|].
  split; intros [H0 H1]; vm_compute in H0, H1; discriminate.
Qed.

(** The two learning steps keep a permanence in [0, 1]. *)
Lemma incPerm_in_unit_interval {T : Type} `{ArithLaws T}
    (s : Synapse T) (d : T) :
  in_unit_interval (permanence s) → leb lit_0_0 d = true →
  in_unit_interval (permanence (incPerm s d)).
Proof.
  intros [Hlo Hhi] Hd. unfold incPerm. simpl.
  pose proof (add_nonneg _ _ Hlo Hd) as Hsum.
  destruct (gtb (add (permanence s) d) lit_1_0) eqn:E.
  - split; [apply leb_0_1 | apply leb_refl, number_1_0].
  - split; [exact Hsum|].
    apply ltb_false_leb; [apply number_1_0 | | exact E].
    apply (leb_number _ _ Hsum).
Qed.

Lemma decPerm_in_unit_interval {T : Type} `{ArithLaws T}
    (s : Synapse T) (d : T) :
  in_unit_interval (permanence s) → leb lit_0_0 d = true →
  in_unit_interval (permanence (decPerm s d)).
Proof.
  intros [Hlo Hhi] Hd. unfold decPerm. simpl.
  pose proof (sub_le_1 _ _ Hlo Hhi Hd) as Hdiff.
  destruct (ltb (sub (permanence s) d) lit_0_0) eqn:E.
  - split; [apply leb_refl, number_0_0 | apply leb_0_1].
  - split; [|exact Hdiff].
    apply ltb_false_leb; [| apply number_0_0 | exact E].
    apply (leb_number _ _ Hdiff).
Qed.

(** C3, amended.  [setPermanence] stores its argument unchanged, so after
    a direct set the permanence is in [0, 1] exactly when the argument is.
    [incPerm] never leaves the permanence above 1.0 and [decPerm] never
    leaves it below 0.0.  From a permanence in [0, 1] and with a step at or
    above 0, both leave the permanence in [0, 1]; this holds for binary64
    as for exact arithmetic. *)
Theorem permanence_stays_in_unit_interval {T : Type} `{ArithLaws T}
    (s : Synapse T) (d p : T) :
  permanence (setPermanence s p) = p ∧
  (in_unit_interval (permanence (setPermanence s p)) ↔ in_unit_interval p) ∧
  gtb (permanence (incPerm s d)) lit_1_0 = false ∧
  ltb (permanence (decPerm s d)) lit_0_0 = false ∧
  (in_unit_interval (permanence s) → leb lit_0_0 d = true →
   in_unit_interval (permanence (incPerm s d)) ∧
   in_unit_interval (permanence (decPerm s d))).
Proof.
  split; [reflexivity|]. split; [reflexivity|].
  split; [apply incPerm_not_above_1|]. split; [apply decPerm_not_below_0|].
  intros Hs Hd.
  split; [apply incPerm_in_unit_interval | apply decPerm_in_unit_interval];
    assumption.
Qed.

Lemma permanence_stays_in_unit_interval_witness :
  in_unit_interval (permanence (mkSynapse true 0%Z 0.95%float)) ∧
  leb lit_0_0 (PERMANENCE_INC (T := float)) = true ∧
  in_unit_interval
    (permanence (incPerm (mkSynapse true 0%Z 0.95%float) PERMANENCE_INC)) ∧
  in_unit_interval
    (permanence (decPerm (mkSynapse true 0%Z 0.95%float) PERMANENCE_INC)).
Proof.
  assert (Hs : in_unit_interval (permanence (mkSynapse true 0%Z 0.95%float)))
    by (split; reflexivity).
  assert (Hd : leb lit_0_0 (PERMANENCE_INC (T := float)) = true)
    by reflexivity.
  split; [exact Hs|]. split; [exact Hd|].
  exact (proj2 (proj2 (proj2 (proj2
           (@permanence_stays_in_unit_interval float float_PyNum
              float_OrderLaws float_ArithLaws
              (mkSynapse true 0%Z 0.95%float) PERMANENCE_INC 0%float))))
           Hs Hd).
Defined.

(** ** Learning *)

Section Learning.
Context {T : Type} `{PyNum T}.

Implicit Types (columns : list (Column T)) (c : Column T).

Lemma learnAndInhibit_cons columns i activeColumns t :
  learnAndInhibit columns (i :: activeColumns) t
  = learnAndInhibit (alter learnColumn i columns) activeColumns t.
Proof. reflexivity. Qed.

(** A column that is not listed is left as it was. *)
Lemma learnAndInhibit_other columns activeColumns t i :
  ¬ In i activeColumns →
  learnAndInhibit columns activeColumns t !! i = columns !! i.
Proof.
  revert columns. induction activeColumns as [|a act IH]; intros columns Hni;
    [reflexivity|].
  rewrite learnAndInhibit_cons, IH by (intros Hin; apply Hni; right; exact Hin).
  apply list_lookup_alter_ne. intros ->. apply Hni. left. reflexivity.
Qed.

(** A column that is listed once has gone through the inner loop once. *)
Lemma learnAndInhibit_listed columns activeColumns t i c :
  NoDup activeColumns → In i activeColumns → columns !! i = Some c →
  learnAndInhibit columns activeColumns t !! i = Some (learnColumn c).
Proof.
  revert columns. induction activeColumns as [|a act IH];
    intros columns Hnd Hin Hi; [destruct Hin|].
  apply NoDup_cons in Hnd. destruct Hnd as [Hna Hnd].
  rewrite learnAndInhibit_cons. destruct (decide (i = a)) as [->|Hne].
  - rewrite learnAndInhibit_other by (rewrite <- list_elem_of_In; exact Hna).
    rewrite list_lookup_alter_eq, Hi. reflexivity.
  - destruct Hin as [->|Hin]; [congruence|].
    apply IH; [assumption | assumption |].
    rewrite list_lookup_alter_ne by congruence. exact Hi.
Qed.

Lemma learnAndInhibit_length columns activeColumns t :
  length (learnAndInhibit columns activeColumns t) = length columns.
Proof.
  revert columns. induction activeColumns as [|a act IH]; intros columns;
    [reflexivity|].
  rewrite learnAndInhibit_cons, IH. apply length_alter.
Qed.

End Learning.

(** The list [findActiveColumns] records names no column twice. *)
Lemma enumerate_from_fst_NoDup {A} (l : list A) n :
  NoDup (map fst (enumerate_from n l)) ∧
  ∀ i, In i (map fst (enumerate_from n l)) → n ≤ i.
Proof.
  revert n. induction l as [|x l IH]; intros n; simpl.
  - split; [constructor | tauto].
  - destruct (IH (S n)) as [Hnd Hge]. split.
    + constructor; [|exact Hnd]. rewrite list_elem_of_In. intros Hin.
      apply Hge in Hin. lia.
    + intros i [<-|Hin]; [lia|]. apply Hge in Hin. lia.
Qed.

Lemma filter_fst_NoDup {A} (P : nat * A → bool) (l : list (nat * A)) :
  NoDup (map fst l) → NoDup (map fst (List.filter P l)).
Proof.
  induction l as [|x l IH]; simpl; intros Hnd; [constructor|].
  apply NoDup_cons in Hnd. destruct Hnd as [Hx Hnd].
  destruct (P x); simpl; [|auto].
  constructor; [|auto]. rewrite list_elem_of_In in *. intros Hin. apply Hx.
  apply in_map_iff in Hin. destruct Hin as [y [Hy Hin]].
  apply filter_In in Hin. apply in_map_iff. exists y. tauto.
Qed.

Lemma findActiveColumns_NoDup {T : Type} `{PyNum T}
    (adjacent : nat → nat → bool) (columns : list (Column T)) (t : Z)
    (k : nat) (log log1 : gmap Z (list nat)) (act : list nat) :
  findActiveColumns adjacent columns t k log = (log1, None) →
  log1 !! t = Some act → NoDup act.
Proof.
  intros Hrun Hact.
  destruct (findActiveColumns_returns adjacent _ _ _ _ _ Hrun) as [_ ->].
  rewrite lookup_insert_eq in Hact. injection Hact as <-.
  apply filter_fst_NoDup, enumerate_from_fst_NoDup.
Qed.

(** C5, as stated, fails: learning leaves a permanence of -3.0 on an
    active synapse at -2.9 and a permanence of 5.0 on an inactive synapse
    at 4.95, neither of them in [0, 1]. *)
Lemma learnAndInhibit_not_clamped :
  map permanence <$> (synapses <$> learnAndInhibit [unclamped_column] [0] 0%Z)
  = [[(-2.9)%float; 4.95%float]] ∧
  ¬ in_unit_interval (-2.9)%float ∧ ¬ in_unit_interval 4.95%float.
Proof.
  split; [reflexivity|].
  split; intros [H0 H1]; vm_compute in H0, H1; discriminate.
Qed.

(** C5, amended.  For a column listed (once) among the active columns,
    learning visits every synapse of the column: the synapse keeps its
    index and its activity flag; if it is active its permanence becomes the
    old one plus [PERMANENCE_INC], replaced by 1.0 when that exceeds 1.0,
    so it is not above 1.0; otherwise its permanence becomes the old one
    minus [PERMANENCE_DEC], replaced by 0.0 when that is below 0.0, so it
    is not below 0.0; and a permanence that was in [0, 1] is in [0, 1]
    afterwards, for binary64 as for exact arithmetic.  [PERMANENCE_INC] and
    [PERMANENCE_DEC] are the literals 0.1 and 0.05. *)
Theorem learnAndInhibit_updates {T : Type} `{ArithLaws T}
    (columns : list (Column T)) (activeColumns : list nat) (t : Z)
    (i : nat) (c : Column T) :
  NoDup activeColumns → In i activeColumns → columns !! i = Some c →
  PERMANENCE_INC = lit_0_1 ∧ PERMANENCE_DEC = lit_0_05 ∧
  ∃ c',
    learnAndInhibit columns activeColumns t !! i = Some c' ∧
    length (synapses c') = length (synapses c) ∧
    ∀ j s, synapses c !! j = Some s →
      ∃ s',
        synapses c' !! j = Some s' ∧
        inputIndex s' = inputIndex s ∧ isactive s' = isactive s ∧
        (isActive s = true →
         permanence s' =
         (if gtb (add (permanence s) PERMANENCE_INC) lit_1_0 then lit_1_0
          else add (permanence s) PERMANENCE_INC) ∧
         gtb (permanence s') lit_1_0 = false) ∧
        (isActive s = false →
         permanence s' =
         (if ltb (sub (permanence s) PERMANENCE_DEC) lit_0_0 then lit_0_0
          else sub (permanence s) PERMANENCE_DEC) ∧
         ltb (permanence s') lit_0_0 = false) ∧
        (in_unit_interval (permanence s) → in_unit_interval (permanence s')).
Proof.
  intros Hnd Hin Hi. split; [reflexivity|]. split; [reflexivity|].
  exists (learnColumn c). split; [apply learnAndInhibit_listed; assumption|].
  split; [apply length_map|].
  intros j s Hj. exists (learnSynapse s). split.
  { unfold learnColumn, getSynapses. simpl.
    change (map ?f ?l) with (f <$> l). rewrite list_lookup_fmap, Hj.
    reflexivity. }
  unfold learnSynapse.
  split; [destruct (isActive s); reflexivity|].
  split; [destruct (isActive s); reflexivity|].
  split; [intros ->; split; [reflexivity | apply incPerm_not_above_1]|].
  split; [intros ->; split; [reflexivity | apply decPerm_not_below_0]|].
  intros Hunit. destruct (isActive s).
  - apply incPerm_in_unit_interval; [exact Hunit | apply leb_0_inc].
  - apply decPerm_in_unit_interval; [exact Hunit | apply leb_0_dec].
Qed.

(** ** The log of active columns *)

(** Scenario 3: overlaps 5, 3, 3 and two desired winners; the 2nd largest
    overlap is 3 and all three columns are recorded. *)
Example findActiveColumns_scenario3 :
  kthScore scenario3_columns 2 = Some 3%float ∧
  findActiveColumns all_adjacent scenario3_columns 0%Z 2 ∅
  = (<[0%Z := [0; 1; 2]]> ∅, None).
Proof. split; reflexivity. Qed.

(** Scenario 4: permanences 0.1 and 0.1, the first synapse active, become
    0.2 and 0.05. *)
Example learnAndInhibit_scenario4 :
  map permanence <$> (synapses <$> learnAndInhibit [scenario4_column] [0] 0%Z)
  = [[0.2%float; 0.05%float]].
Proof. reflexivity. Qed.

(** C6, as stated, fails: with the list [0] recorded under timestep 0, a
    run for timestep 0 over a column whose overlap is 0.0 (which the loop
    skips before it calls any helper) replaces that entry with the empty
    list. *)
Lemma ACTIVE_COLUMNS_overwritten :
  (<[0%Z := [0]]> (∅ : gmap Z (list nat))) !! 0%Z = Some [0] ∧
  findActiveColumns all_adjacent [column_with_overlap 0] 0%Z 1
    (<[0%Z := [0]]> ∅)
  = (<[0%Z := []]> (<[0%Z := [0]]> ∅), None) ∧
  (findActiveColumns all_adjacent [column_with_overlap 0] 0%Z 1
     (<[0%Z := [0]]> ∅)).1 !! 0%Z = Some [].
Proof. repeat split; reflexivity. Qed.

(** C6, amended.  [findActiveColumns] leaves the entry of every timestep
    other than [t] as it was; when it returns normally the dictionary is
    the old one with the newly selected list stored under [t], whatever
    was recorded there before; when it raises, the dictionary is
    unchanged. *)
Theorem findActiveColumns_log {T : Type} `{PyNum T}
    (adjacent : nat → nat → bool) (columns : list (Column T)) (t : Z)
    (k : nat) (log : gmap Z (list nat)) :
  (∀ t', t' ≠ t →
     (findActiveColumns adjacent columns t k log).1 !! t' = log !! t') ∧
  ((findActiveColumns adjacent columns t k log).2 = None →
   ∃ act,
     selectColumns adjacent columns k (enumerate_from 0 columns) = Return act ∧
     (findActiveColumns adjacent columns t k log).1 = <[t := act]> log ∧
     (findActiveColumns adjacent columns t k log).1 !! t = Some act) ∧
  (∀ e, (findActiveColumns adjacent columns t k log).2 = Some e →
     (findActiveColumns adjacent columns t k log).1 = log).
Proof.
  unfold findActiveColumns.
  destruct (selectColumns adjacent columns k (enumerate_from 0 columns))
    as [act|e]; simpl.
  - split; [|split].
    + intros t' Hne. apply lookup_insert_ne. congruence.
    + intros _. exists act. split; [reflexivity|]. split; [reflexivity|].
      apply lookup_insert_eq.
    + discriminate.
  - split; [|split]; [reflexivity | discriminate | reflexivity].
Qed.

(** The inner loop and one iteration of the outer loop use nothing of the
    column but its overlap and its boost. *)
Lemma addSourceInputs_overlap_only {T : Type} `{PyNum T}
    (inputVector : Z → list bool) (objs : list (PyObj T)) t
    (c c' : Column T) :
  overlap c = overlap c' → boost c = boost c' →
  overlap (addSourceInputs inputVector objs t c).1
  = overlap (addSourceInputs inputVector objs t c').1 ∧
  boost (addSourceInputs inputVector objs t c).1
  = boost (addSourceInputs inputVector objs t c').1 ∧
  (addSourceInputs inputVector objs t c).2
  = (addSourceInputs inputVector objs t c').2.
Proof.
  revert c c'. induction objs as [|s rest IH]; intros c c' Ho Hb; simpl;
    [auto|].
  destruct (call_getSourcetInput inputVector s t) as [x|e]; simpl; [|auto].
  apply IH; simpl; [unfold getOverlap; rewrite Ho; reflexivity | exact Hb].
Qed.

Lemma overlapOfColumn_overlap_only {T : Type} `{PyNum T}
    (inputVector : Z → list bool) connected t minOverlap (c c' : Column T) :
  connected (setOverlap c lit_0_0) = connected (setOverlap c' lit_0_0) →
  boost c = boost c' →
  overlap (overlapOfColumn inputVector connected t minOverlap c).1
  = overlap (overlapOfColumn inputVector connected t minOverlap c').1 ∧
  (overlapOfColumn inputVector connected t minOverlap c).2
  = (overlapOfColumn inputVector connected t minOverlap c').2.
Proof.
  intros Hcon Hb. unfold overlapOfColumn. rewrite <- Hcon.
  destruct (connected (setOverlap c lit_0_0)) as [objs|e]; [|auto].
  destruct (addSourceInputs_overlap_only inputVector objs t
              (setOverlap c lit_0_0) (setOverlap c' lit_0_0) eq_refl Hb)
    as [Ho [Hb' He]].
  destruct (addSourceInputs inputVector objs t (setOverlap c lit_0_0))
    as [c1 r1], (addSourceInputs inputVector objs t (setOverlap c' lit_0_0))
    as [c1' r1']. simpl in Ho, Hb', He. subst r1'.
  destruct r1 as [e|]; simpl; [auto|].
  unfold getOverlap, boostOverlap. rewrite <- Ho, <- Hb'.
  destruct (ltb (overlap c1) minOverlap); auto.
Qed.

(** C10.  A new synapse has permanence 0.0, is inactive, and is not
    connected under [CONNECTED_PERM] nor under any other threshold at or
    above 0.  It adds nothing to its column's overlap: the iteration of
    [findOverlap] over a column that holds it leaves that column with the
    overlap 0.0, and with the spec's sequence of connected synapses, which
    is the same with the new synapse and without it, the overlap and the
    outcome of the iteration are the same as without it.  A direct set
    connects it exactly when the value set is above [CONNECTED_PERM]. *)
Theorem fresh_synapse_contributes_nothing {T : Type} `{OrderLaws T}
    (inputVector : Z → list bool) (i : Z) :
  leb lit_0_0 CONNECTED_PERM = true →
  permanence (Synapse_init i) = lit_0_0 ∧
  isactive (Synapse_init i) = false ∧
  isConnnected (Synapse_init i) = false ∧
  (∀ thr, leb lit_0_0 thr = true →
     isConnnected_with thr (Synapse_init i) = false) ∧
  (∀ (c : Column T) t minOverlap,
     In (Synapse_init i) (synapses c) →
     (overlapOfColumn inputVector getConnectedSynapses t minOverlap c).1
     = setOverlap c lit_0_0) ∧
  (∀ b o cs ss1 ss2,
     connectedSynapses_spec (mkColumn b o cs (ss1 ++ Synapse_init i :: ss2))
     = connectedSynapses_spec (mkColumn b o cs (ss1 ++ ss2))) ∧
  (∀ b o cs ss1 ss2 t minOverlap,
     overlap (overlapOfColumn inputVector connectedSynapses_spec t minOverlap
                (mkColumn b o cs (ss1 ++ Synapse_init i :: ss2))).1
     = overlap (overlapOfColumn inputVector connectedSynapses_spec t
                  minOverlap (mkColumn b o cs (ss1 ++ ss2))).1 ∧
     (overlapOfColumn inputVector connectedSynapses_spec t minOverlap
        (mkColumn b o cs (ss1 ++ Synapse_init i :: ss2))).2
     = (overlapOfColumn inputVector connectedSynapses_spec t minOverlap
          (mkColumn b o cs (ss1 ++ ss2))).2) ∧
  (∀ p, isConnnected (setPermanence (Synapse_init i) p)
        = gtb p CONNECTED_PERM).
Proof.
  intros Hthr.
  assert (Hnot : ∀ thr, leb lit_0_0 thr = true →
            isConnnected_with thr (Synapse_init i) = false).
  { intros thr Hle. apply (Synapse_init_not_connected i thr Hle). }
  assert (Hspec : ∀ b o cs ss1 ss2,
            connectedSynapses_spec
              (mkColumn b o cs (ss1 ++ Synapse_init i :: ss2))
            = connectedSynapses_spec (mkColumn b o cs (ss1 ++ ss2))).
  { intros b o cs ss1 ss2. unfold connectedSynapses_spec. simpl.
    rewrite !List.filter_app. simpl.
    unfold isConnnected at 2. rewrite (Hnot _ Hthr). reflexivity. }
  split; [reflexivity|]. split; [reflexivity|].
  split; [exact (Hnot _ Hthr)|]. split; [exact Hnot|].
  split; [|split; [exact Hspec | split; [|reflexivity]]].
  - intros c t minOverlap Hin.
    rewrite overlapOfColumn_raises; [reflexivity|].
    intros Hnil. rewrite Hnil in Hin. destruct Hin.
  - intros b o cs ss1 ss2 t minOverlap.
    apply overlapOfColumn_overlap_only; [|reflexivity].
    exact (Hspec b lit_0_0 cs ss1 ss2).
Qed.

Lemma fresh_synapse_contributes_nothing_witness :
  leb lit_0_0 (CONNECTED_PERM (T := float)) = true ∧
  isConnnected (Synapse_init (T := float) 0%Z) = false ∧
  (overlapOfColumn example_input getConnectedSynapses 0%Z 0%float
     fresh_synapse_column).1
  = setOverlap fresh_synapse_column 0%float.
Proof.
  assert (Hthr : leb lit_0_0 (CONNECTED_PERM (T := float)) = true)
    by reflexivity.
  destruct (@fresh_synapse_contributes_nothing float float_PyNum
              float_OrderLaws example_input 0%Z Hthr)
    as [_ [_ [Hcon [_ [Hcol _]]]]].
  split; [exact Hthr|]. split; [exact Hcon|].
  apply Hcol. left. reflexivity.
Defined.

(** A new synapse in a constructed column, on binary64: the column ends
    with the overlap 0.0, as the constructed column without it does. *)
Example fresh_synapse_scenario :
  overlap <$> (findOverlap example_input [fresh_synapse_column] 0%Z 0%float).1
  = [0%float] ∧
  overlap <$> (findOverlap example_input [Column_init] 0%Z 0%float).1
  = [0%float].
Proof. split; reflexivity. Qed.

(** The theorems at concrete inputs. *)
Lemma findActiveColumns_selects_witness :
  numbers (map getOverlap scenario3_columns) ∧
  ∃ act,
    findActiveColumns all_adjacent scenario3_columns 0%Z 2 ∅
    = (<[0%Z := act]> ∅, None) ∧
    (In 1 act ↔ geb 3%float 3%float = true).
Proof.
  assert (Hn : numbers (map getOverlap scenario3_columns))
    by (repeat constructor).
  split; [exact Hn|].
  assert (Hk : ∀ i c, scenario3_columns !! i = Some c →
            gtb (getOverlap c) lit_0_0 = true →
            1 ≤ 2 ≤ length (getNeighbors all_adjacent scenario3_columns i)).
  { intros i c Hi _. destruct i as [|[|[|i]]]; simpl in Hi;
      try discriminate; simpl; lia. }
  destruct (findActiveColumns_selects all_adjacent scenario3_columns 0%Z 2 ∅
              Hn Hk) as [act [Hrun [_ Hsel]]].
  exists act. split; [exact Hrun|].
  destruct (Hsel 1 (column_with_overlap 3) eq_refl) as [_ [Hpos _]].
  destruct (Hpos eq_refl) as [m [Hm [_ [_ [_ Hiff]]]]].
  injection Hm as <-. exact Hiff.
Defined.

Lemma findActiveColumns_monotone_witness :
  leb (getOverlap (column_with_overlap 3)) 4%float = true ∧
  ∃ act',
    findActiveColumns all_adjacent
      (<[1 := setOverlap (column_with_overlap 3) 4%float]> scenario3_columns)
      0%Z 2 ∅
    = (<[0%Z := act']> ∅, None) ∧ In 1 act'.
Proof.
  split; [reflexivity|].
  apply (findActiveColumns_monotone all_adjacent scenario3_columns 0%Z 2 ∅
           (<[0%Z := [0; 1; 2]]> ∅) 1 (column_with_overlap 3) 4%float
           [0; 1; 2]).
  - repeat constructor.
  - reflexivity.
  - reflexivity.
  - reflexivity.
  - reflexivity.
  - right. left. reflexivity.
Defined.

Lemma learnAndInhibit_updates_witness :
  NoDup [0] ∧ In 0 [0] ∧
  ∃ c', learnAndInhibit [scenario4_column] [0] 0%Z !! 0 = Some c' ∧
        map permanence (synapses c') = [0.2%float; 0.05%float] ∧
        Forall (fun s => in_unit_interval (permanence s)) (synapses c').
Proof.
  assert (Hnd : NoDup [0]) by (apply NoDup_singleton).
  assert (Hp : in_unit_interval 0.1%float) by (split; reflexivity).
  split; [exact Hnd|]. split; [left; reflexivity|].
  destruct (@learnAndInhibit_updates float float_PyNum float_OrderLaws
              float_ArithLaws [scenario4_column] [0] 0%Z 0
              scenario4_column Hnd (or_introl eq_refl) eq_refl)
    as [_ [_ [c' [Hc' [Hlen Hsyn]]]]].
  exists c'. split; [exact Hc'|].
  destruct (Hsyn 0 _ eq_refl) as [s0 [Hs0 [_ [_ [Hact0 [_ Hu0]]]]]].
  destruct (Hsyn 1 _ eq_refl) as [s1 [Hs1 [_ [_ [_ [Hinact1 Hu1]]]]]].
  destruct (Hact0 eq_refl) as [Hp0 _]. destruct (Hinact1 eq_refl) as [Hp1 _].
  destruct (synapses c') as [|x0 [|x1 [|x2 rest]]]; try discriminate Hlen.
  injection Hs0 as ->. injection Hs1 as ->. simpl.
  split; [rewrite Hp0, Hp1; reflexivity|].
  constructor; [exact (Hu0 Hp) | constructor; [exact (Hu1 Hp) | constructor]].
Defined.

(** * Further properties of the module *)

(** The rationals satisfy the step laws. *)
#[export, refine] Instance Q_StepLaws : StepLaws Q := {| threshold_lt_1 := _ |}.
Proof.
  - intros x d. cbn. rewrite !Qle_bool_iff. lra.
  - intros x d. cbn. rewrite !Qle_bool_iff. lra.
  - reflexivity.
  - reflexivity.
Qed.

(** Both instances satisfy the laws of the connection argument. *)
#[export, refine] Instance Q_ConnectionLaws : ConnectionLaws Q := {|
  connected_perm_lt_1 := _
|}.
Proof.
  - intros x d. cbn. rewrite !negb_true_iff, !Qle_bool_iff.
    intros Hx Hd. apply not_true_iff_false in Hx.
    rewrite Qle_bool_iff in Hx. lra.
  - intros x d. cbn. rewrite !Qle_bool_iff. lra.
  - intros x d. cbn. rewrite Qle_bool_iff, negb_false_iff.
    intros Hx Hd. apply not_true_iff_false in Hx.
    rewrite Qle_bool_iff in Hx. apply Qle_bool_iff. lra.
  - reflexivity.
  - reflexivity.
Qed.

#[export, refine] Instance float_ConnectionLaws : ConnectionLaws float := {|
  connected_perm_lt_1 := _
|}.
Proof.
  - exact float_add_step_le.
  - exact float_sub_step_le.
  - exact float_sub_not_positive.
  - reflexivity.
  - reflexivity.
Qed.

(** ** findOverlap as written *)

Section FindOverlapFacts.
Context {T : Type} `{PyNum T}.
Variable inputVector : Z → list bool.

Implicit Types (c : Column T) (columns : list (Column T)).

Lemma overlapOfColumn_without_synapses t minOverlap c :
  synapses c = [] →
  overlapOfColumn inputVector getConnectedSynapses t minOverlap c
  = (overlap_without_synapses minOverlap c, None).
Proof.
  intros Hnil. rewrite (overlapOfColumn_no_synapses _ _ _ _ Hnil).
  unfold overlap_without_synapses. destruct (ltb lit_0_0 minOverlap);
    reflexivity.
Qed.

Lemma findOverlap_prefix (pre post : list (Column T)) t minOverlap :
  Forall (fun c => synapses c = []) pre →
  findOverlap inputVector (pre ++ post) t minOverlap
  = (map (overlap_without_synapses minOverlap) pre
       ++ (findOverlap inputVector post t minOverlap).1,
     (findOverlap inputVector post t minOverlap).2).
Proof.
  unfold findOverlap. induction 1 as [|c pre Hc _ IH]; simpl.
  - destruct (findOverlap_with inputVector getConnectedSynapses post t
                minOverlap); reflexivity.
  - rewrite (overlapOfColumn_without_synapses t minOverlap c Hc), IH.
    reflexivity.
Qed.

(** The columns ahead of the first one that has a synapse. *)
Lemma first_with_synapse columns :
  Forall (fun c => synapses c = []) columns ∨
  ∃ pre c post,
    columns = pre ++ c :: post ∧
    Forall (fun c => synapses c = []) pre ∧ synapses c ≠ [].
Proof.
  induction columns as [|d rest [Hall | [pre [c [post [-> [Hpre Hc]]]]]]].
  - left. constructor.
  - destruct (synapses d) as [|s ss] eqn:Ed.
    + left. constructor; assumption.
    + right. exists [], d, rest. split; [reflexivity|].
      split; [constructor | rewrite Ed; discriminate].
  - destruct (synapses d) as [|s ss] eqn:Ed.
    + right. exists (d :: pre), c, post. split; [reflexivity|].
      split; [constructor; assumption | exact Hc].
    + right. exists [], d, (pre ++ c :: post). split; [reflexivity|].
      split; [constructor | rewrite Ed; discriminate].
Qed.

Lemma findOverlap_all_without_synapses columns t minOverlap :
  Forall (fun c => synapses c = []) columns →
  findOverlap inputVector columns t minOverlap
  = (map (overlap_without_synapses minOverlap) columns, None).
Proof.
  intros Hall.
  rewrite <- (app_nil_r columns) at 1.
  rewrite (findOverlap_prefix columns [] t minOverlap Hall). simpl.
  rewrite app_nil_r. reflexivity.
Qed.

Lemma findOverlap_at_first_synapse (pre post : list (Column T)) c t minOverlap :
  Forall (fun c => synapses c = []) pre → synapses c ≠ [] →
  findOverlap inputVector (pre ++ c :: post) t minOverlap
  = (map (overlap_without_synapses minOverlap) pre
       ++ setOverlap c lit_0_0 :: post, Some AttributeError).
Proof.
  intros Hpre Hc. rewrite (findOverlap_prefix pre _ t minOverlap Hpre).
  unfold findOverlap. simpl.
  rewrite (overlapOfColumn_raises inputVector t minOverlap c Hc). reflexivity.
Qed.

(** X1.  [findOverlap] returns normally exactly when no column of the
    region has a synapse, and the only exception it ever ends with is
    [AttributeError]. *)
Theorem findOverlap_returns_iff columns t minOverlap :
  ((findOverlap inputVector columns t minOverlap).2 = None ↔
   Forall (fun c => synapses c = []) columns) ∧
  (∀ e, (findOverlap inputVector columns t minOverlap).2 = Some e →
        e = AttributeError).
Proof.
  destruct (first_with_synapse columns)
    as [Hall | [pre [c [post [-> [Hpre Hc]]]]]].
  - rewrite (findOverlap_all_without_synapses _ t minOverlap Hall). simpl.
    split; [tauto | discriminate].
  - rewrite (findOverlap_at_first_synapse pre post c t minOverlap Hpre Hc).
    simpl. split; [|congruence].
    split; [discriminate|]. intros Hall.
    apply Forall_app in Hall. destruct Hall as [_ Hall].
    inversion Hall; subst. contradiction.
Qed.

(** X2.  On a region in which no column has a synapse, [findOverlap]
    returns normally and sets every column's overlap to 0.0 when
    [0.0 < minOverlap], and to [0.0 * boost] otherwise; nothing else
    changes. *)
Theorem findOverlap_without_synapses columns t minOverlap :
  Forall (fun c => synapses c = []) columns →
  findOverlap inputVector columns t minOverlap
  = (map (fun c => setOverlap c (if ltb lit_0_0 minOverlap then lit_0_0
                                 else mul lit_0_0 (boost c))) columns,
     None).
Proof. apply findOverlap_all_without_synapses. Qed.

(** X3.  At the first column that has a synapse [findOverlap] ends with
    [AttributeError]: the columns before it have been given their
    overlap, that column's overlap has been reset to 0.0, and the columns
    after it are left as they were, overlap included. *)
Theorem findOverlap_stops_at_first_synapse (pre post : list (Column T)) c t
    minOverlap :
  Forall (fun c => synapses c = []) pre → synapses c ≠ [] →
  findOverlap inputVector (pre ++ c :: post) t minOverlap
  = (map (fun c => setOverlap c (if ltb lit_0_0 minOverlap then lit_0_0
                                 else mul lit_0_0 (boost c))) pre
       ++ setOverlap c lit_0_0 :: post,
     Some AttributeError).
Proof. apply findOverlap_at_first_synapse. Qed.

(** The inner loop and one iteration of the outer loop change the overlap
    of the column and nothing else. *)
Lemma addSourceInputs_setOverlap objs t c :
  ∃ o, (addSourceInputs inputVector objs t c).1 = setOverlap c o.
Proof.
  revert c. induction objs as [|s rest IH]; intros c; simpl.
  - exists (overlap c). destruct c; reflexivity.
  - destruct (call_getSourcetInput inputVector s t) as [x|e]; simpl.
    + destruct (IH (setOverlap c (add (getOverlap c) x))) as [o Ho].
      exists o. rewrite Ho. reflexivity.
    + exists (overlap c). destruct c; reflexivity.
Qed.

Lemma overlapOfColumn_setOverlap connected t minOverlap c :
  ∃ o, (overlapOfColumn inputVector connected t minOverlap c).1
       = setOverlap c o.
Proof.
  unfold overlapOfColumn.
  destruct (connected (setOverlap c lit_0_0)) as [objs|e0];
    [| exists lit_0_0; reflexivity].
  destruct (addSourceInputs_setOverlap objs t (setOverlap c lit_0_0))
    as [o Ho].
  destruct (addSourceInputs inputVector objs t (setOverlap c lit_0_0))
    as [c1 [e|]]; simpl in *; subst c1.
  - exists o. reflexivity.
  - destruct (ltb _ minOverlap); eexists; reflexivity.
Qed.

(** The overlap a column comes in with does not matter. *)
Lemma overlapOfColumn_forgets connected t minOverlap c o :
  overlapOfColumn inputVector connected t minOverlap (setOverlap c o)
  = overlapOfColumn inputVector connected t minOverlap c.
Proof. reflexivity. Qed.

(** X4.  Whatever callee yields the objects to iterate over, and whether or
    not the call raises, [findOverlap] changes nothing but overlaps: the
    region keeps its length, and every column keeps its boost, its cells
    and its synapses. *)
Theorem findOverlap_changes_overlap_only connected columns t minOverlap :
  Forall2 (fun c c' => ∃ o, c' = setOverlap c o) columns
    (findOverlap_with inputVector connected columns t minOverlap).1 ∧
  Forall2 (fun c c' => boost c' = boost c ∧ cells c' = cells c ∧
                       synapses c' = synapses c) columns
    (findOverlap_with inputVector connected columns t minOverlap).1.
Proof.
  assert (Hfirst :
    Forall2 (fun c c' => ∃ o, c' = setOverlap c o) columns
      (findOverlap_with inputVector connected columns t minOverlap).1).
  { induction columns as [|c rest IH]; simpl; [constructor|].
    destruct (overlapOfColumn_setOverlap connected t minOverlap c) as [o Ho].
    destruct (overlapOfColumn inputVector connected t minOverlap c)
      as [c' [e|]]; simpl in *; subst c'.
    - constructor; [eauto|]. apply Forall2_same_length_lookup_2;
        [reflexivity|]. intros i x y Hx Hy. assert (y = x) by congruence.
      subst y. exists (overlap x). destruct x; reflexivity.
    - destruct (findOverlap_with inputVector connected rest t minOverlap)
        as [rest' r]. simpl in *. constructor; eauto. }
  split; [exact Hfirst|].
  eapply Forall2_impl; [exact Hfirst|].
  intros c c' [o ->]. auto.
Qed.

(** X5.  Running [findOverlap] again on the region it left behind, with the
    same input, gives the same region and the same outcome: the overlap of
    an earlier run is never read. *)
Theorem findOverlap_idempotent connected columns t minOverlap :
  findOverlap_with inputVector connected
    (findOverlap_with inputVector connected columns t minOverlap).1
    t minOverlap
  = findOverlap_with inputVector connected columns t minOverlap.
Proof.
  induction columns as [|c rest IH]; simpl; [reflexivity|].
  destruct (overlapOfColumn_setOverlap connected t minOverlap c) as [o Ho].
  destruct (overlapOfColumn inputVector connected t minOverlap c)
    as [c' [e|]] eqn:Ec; simpl in Ho; subst c'; simpl.
  - rewrite overlapOfColumn_forgets, Ec. reflexivity.
  - destruct (findOverlap_with inputVector connected rest t minOverlap)
      as [rest' r] eqn:Er. simpl in *.
    rewrite overlapOfColumn_forgets, Ec, IH. reflexivity.
Qed.

End FindOverlapFacts.

(** ** findActiveColumns, whatever its helpers compute *)

Section FindActiveColumnsFacts.
Context {T : Type} `{PyNum T}.
Variable minLocalActivityOf : list (Column T) → nat → outcome T.

Implicit Types (c : Column T) (columns : list (Column T)).

(** The claims' [findActiveColumns] is the instance with the modelled
    helpers. *)
Lemma selectColumns_as_with adjacent k columns todo :
  selectColumns adjacent columns k todo
  = selectColumns_with (modelled_minLocalActivityOf adjacent k) columns todo.
Proof.
  induction todo as [|[i c] todo IH]; simpl; [reflexivity|].
  rewrite IH. unfold modelled_minLocalActivityOf.
  destruct (negb (gtb (getOverlap c) lit_0_0)); [reflexivity|].
  destruct (kthScore (getNeighbors adjacent columns i) k); reflexivity.
Qed.

Lemma findActiveColumns_as_with adjacent k columns t log :
  findActiveColumns adjacent columns t k log
  = findActiveColumns_with (modelled_minLocalActivityOf adjacent k)
      columns t log.
Proof.
  unfold findActiveColumns, findActiveColumns_with.
  rewrite selectColumns_as_with. reflexivity.
Qed.

(** The positions the loop appends are those of [todo] for which the
    decision is positive, in the order of [todo]. *)
Lemma selectColumns_with_Return columns todo act :
  selectColumns_with minLocalActivityOf columns todo = Return act →
  act = map fst (List.filter (selected_with minLocalActivityOf columns) todo).
Proof.
  revert act. induction todo as [|[i c] todo IH]; intros act; simpl.
  - congruence.
  - unfold selected_with at 1. simpl.
    destruct (gtb (getOverlap c) lit_0_0); simpl; [|apply IH].
    destruct (minLocalActivityOf columns i) as [m|e]; [|discriminate].
    destruct (selectColumns_with minLocalActivityOf columns todo)
      as [a|e]; [|discriminate].
    intros [= <-]. rewrite (IH a eq_refl).
    destruct (geb (getOverlap c) m); reflexivity.
Qed.

Lemma first_raise_in_nil columns e : ¬ first_raise_in minLocalActivityOf columns [] e.
Proof. intros [pre [i [c [post [Heq _]]]]]. destruct pre; discriminate. Qed.

Lemma first_raise_in_head columns i c todo e0 e :
  gtb (getOverlap c) lit_0_0 = true →
  minLocalActivityOf columns i = Raise e0 →
  first_raise_in minLocalActivityOf columns ((i, c) :: todo) e ↔ e0 = e.
Proof.
  intros Hpos Hr. split.
  - intros [pre [j [d [post [Heq [Hpos' [Hr' Hpre]]]]]]].
    destruct pre as [|p pre]; simpl in Heq.
    + injection Heq as <- <- <-. congruence.
    + injection Heq as <- ->. inversion Hpre as [|? ? Hp _]; subst.
      simpl in Hp. destruct (Hp Hpos) as [m Hm]. congruence.
  - intros <-. exists [], i, c, todo. simpl. auto.
Qed.

Lemma first_raise_in_skip columns i c todo e :
  (gtb (getOverlap c) lit_0_0 = true →
   ∃ m, minLocalActivityOf columns i = Return m) →
  first_raise_in minLocalActivityOf columns ((i, c) :: todo) e ↔ first_raise_in minLocalActivityOf columns todo e.
Proof.
  intros Hok. split.
  - intros [pre [j [d [post [Heq [Hpos [Hr Hpre]]]]]]].
    destruct pre as [|p pre]; simpl in Heq.
    + injection Heq as <- <- <-. destruct (Hok Hpos) as [m Hm]. congruence.
    + injection Heq as <- ->. inversion Hpre; subst.
      exists pre, j, d, post. auto.
  - intros [pre [j [d [post [-> [Hpos [Hr Hpre]]]]]]].
    exists ((i, c) :: pre), j, d, post. split; [reflexivity|].
    split; [assumption|]. split; [assumption|].
    constructor; [exact Hok | assumption].
Qed.

(** The loop raises exactly the exception of the first helper call that
    raises, and the helper is called for the columns with a strictly
    positive overlap only. *)
Lemma selectColumns_with_Raise columns todo e :
  selectColumns_with minLocalActivityOf columns todo = Raise e ↔
  first_raise_in minLocalActivityOf columns todo e.
Proof.
  induction todo as [|[i c] todo IH]; simpl.
  - split; [discriminate | intros Hr; destruct (first_raise_in_nil _ _ Hr)].
  - destruct (gtb (getOverlap c) lit_0_0) eqn:Epos; simpl.
    + destruct (minLocalActivityOf columns i) as [m|e0] eqn:Em.
      * rewrite first_raise_in_skip by eauto. rewrite <- IH.
        destruct (selectColumns_with minLocalActivityOf columns todo);
          split; congruence.
      * rewrite (first_raise_in_head columns i c todo e0 e Epos Em).
        split; congruence.
    + rewrite first_raise_in_skip by congruence. exact IH.
Qed.

Lemma In_selected_with columns i :
  In i (map fst (List.filter (selected_with minLocalActivityOf columns)
                   (enumerate_from 0 columns))) ↔
  ∃ c m, columns !! i = Some c ∧ gtb (getOverlap c) lit_0_0 = true ∧
         minLocalActivityOf columns i = Return m ∧
         geb (getOverlap c) m = true.
Proof.
  rewrite in_map_iff. split.
  - intros [[j c] [Hj Hin]]. simpl in Hj. subst j.
    apply filter_In in Hin. destruct Hin as [Hin Hsel].
    apply enumerate_In in Hin. unfold selected_with in Hsel. simpl in Hsel.
    apply andb_true_iff in Hsel. destruct Hsel as [Hpos Hsel].
    destruct (minLocalActivityOf columns i) as [m|e]; [|discriminate].
    exists c, m. auto.
  - intros [c [m [Hc [Hpos [Hm Hge]]]]]. exists (i, c).
    split; [reflexivity|]. apply filter_In. split; [apply enumerate_In, Hc|].
    unfold selected_with. simpl. rewrite Hpos, Hm. exact Hge.
Qed.

(** Positions are appended in increasing order. *)
Lemma filter_enumerate_sorted {A} (P : nat * A → bool) (l : list A) n :
  StronglySorted lt (map fst (List.filter P (enumerate_from n l))) ∧
  Forall (fun i => n ≤ i) (map fst (List.filter P (enumerate_from n l))).
Proof.
  revert n. induction l as [|x l IH]; intros n; simpl.
  - split; constructor.
  - destruct (IH (S n)) as [Hs Hge].
    assert (Hge' : Forall (fun i => n ≤ i)
                     (map fst (List.filter P (enumerate_from (S n) l)))).
    { eapply List.Forall_impl; [|exact Hge]. simpl. lia. }
    destruct (P (n, x)); simpl; [|auto]. split.
    + constructor; [exact Hs|].
      eapply List.Forall_impl; [|exact Hge]. simpl. lia.
    + constructor; [lia | exact Hge'].
Qed.

(** Where the enumeration of a region splits, the region splits. *)
Lemma enumerate_from_split {A} (l : list A) n pre i (x : A) post :
  enumerate_from n l = pre ++ (i, x) :: post →
  i = n + length pre ∧ l !! length pre = Some x ∧
  (∀ j y, In (j, y) pre → j < i) ∧
  (∀ j y, In (j, y) post → i < j).
Proof.
  revert l n. induction pre as [|p pre IH]; intros [|a l] n Heq;
    simpl in Heq; try discriminate.
  - injection Heq as <- <- <-. simpl. split; [lia|]. split; [reflexivity|].
    split; [tauto|]. intros j y Hin. apply enumerate_from_In in Hin. lia.
  - injection Heq as <- Heq.
    destruct (IH l (S n) Heq) as [Hi [Hx [Hpre Hpost]]].
    simpl. split; [lia|]. split; [exact Hx|]. split; [|exact Hpost].
    intros j y [[= <- <-]|Hin]; [lia | eauto].
Qed.

Lemma enumerate_from_take_drop {A} (l : list A) i (x : A) :
  l !! i = Some x →
  enumerate_from 0 l
  = enumerate_from 0 (take i l) ++ (i, x) :: enumerate_from (S i) (drop (S i) l).
Proof.
  assert (Hgen : ∀ n, l !! i = Some x →
            enumerate_from n l
            = enumerate_from n (take i l)
                ++ (n + i, x) :: enumerate_from (S (n + i)) (drop (S i) l)).
  { revert i. induction l as [|a l IH]; intros i n Hi; [discriminate|].
    destruct i as [|i]; simpl in *.
    - injection Hi as ->. rewrite Nat.add_0_r. rewrite drop_0. reflexivity.
    - rewrite (IH i (S n) Hi).
      replace (n + S i) with (S n + i) by lia. reflexivity. }
  intros Hi. apply (Hgen 0 Hi).
Qed.

(** X6.  When [findActiveColumns] returns normally, the list it stores
    under [t] holds positions of the region in strictly increasing order
    (so no column twice), and a position is in the list exactly when its
    column has an overlap strictly above 0 that is at or above the value
    the helpers returned for it. *)
Theorem findActiveColumns_with_records columns t
    (log log' : gmap Z (list nat)) :
  findActiveColumns_with minLocalActivityOf columns t log = (log', None) →
  ∃ act,
    log' = <[t := act]> log ∧
    StronglySorted lt act ∧
    ∀ i, In i act ↔
         ∃ c m, columns !! i = Some c ∧
                gtb (getOverlap c) lit_0_0 = true ∧
                minLocalActivityOf columns i = Return m ∧
                geb (getOverlap c) m = true.
Proof.
  unfold findActiveColumns_with. intros Hrun.
  destruct (selectColumns_with minLocalActivityOf columns
              (enumerate_from 0 columns)) as [act|e] eqn:Es; [|discriminate].
  injection Hrun as <-. exists act. split; [reflexivity|].
  rewrite (selectColumns_with_Return _ _ _ Es).
  split; [apply filter_enumerate_sorted | apply In_selected_with].
Qed.

(** Columns whose overlap is not strictly above 0 are passed over without
    a call to the helpers. *)
Lemma findActiveColumns_with_none_positive columns t
    (log : gmap Z (list nat)) :
  Forall (fun c => gtb (getOverlap c) lit_0_0 = false) columns →
  findActiveColumns_with minLocalActivityOf columns t log
  = (<[t := []]> log, None).
Proof.
  intros Hall. unfold findActiveColumns_with.
  assert (Hsel : ∀ todo,
            Forall (fun jc => gtb (getOverlap (snd jc)) lit_0_0 = false)
              todo →
            selectColumns_with minLocalActivityOf columns todo = Return []).
  { induction 1 as [|[i c] todo Hc _ IH]; simpl; [reflexivity|].
    simpl in Hc. rewrite Hc. exact IH. }
  rewrite Hsel; [reflexivity|].
  rewrite List.Forall_forall in *. intros [i c] Hin.
  apply enumerate_In in Hin. simpl. apply Hall.
  apply list_elem_of_In, list_elem_of_lookup_2 with i, Hin.
Qed.

(** X7.  When no column of the region has an overlap strictly above 0, in
    particular when the region is empty, [findActiveColumns] stores the
    empty list under [t] and returns normally without consulting the
    helpers, whatever they would have done. *)
Theorem findActiveColumns_with_skips columns t (log : gmap Z (list nat)) :
  Forall (fun c => gtb (getOverlap c) lit_0_0 = false) columns →
  findActiveColumns_with minLocalActivityOf columns t log
  = (<[t := []]> log, None).
Proof. apply findActiveColumns_with_none_positive. Qed.

(** X8.  [findActiveColumns] ends with an exception [e] exactly when [e] is
    raised by the helpers for some column with an overlap strictly above 0
    while they returned a value for every such column before it; the
    dictionary is then left as it was. *)
Theorem findActiveColumns_with_raises columns t (log : gmap Z (list nat)) e :
  ((findActiveColumns_with minLocalActivityOf columns t log).2 = Some e ↔
   ∃ i c,
     columns !! i = Some c ∧ gtb (getOverlap c) lit_0_0 = true ∧
     minLocalActivityOf columns i = Raise e ∧
     ∀ j c', j < i → columns !! j = Some c' →
             gtb (getOverlap c') lit_0_0 = true →
             ∃ m, minLocalActivityOf columns j = Return m) ∧
  ((findActiveColumns_with minLocalActivityOf columns t log).2 = Some e →
   (findActiveColumns_with minLocalActivityOf columns t log).1 = log).
Proof.
  unfold findActiveColumns_with.
  assert (Hiff : selectColumns_with minLocalActivityOf columns
                   (enumerate_from 0 columns) = Raise e ↔
                 ∃ i c,
                   columns !! i = Some c ∧
                   gtb (getOverlap c) lit_0_0 = true ∧
                   minLocalActivityOf columns i = Raise e ∧
                   ∀ j c', j < i → columns !! j = Some c' →
                           gtb (getOverlap c') lit_0_0 = true →
                           ∃ m, minLocalActivityOf columns j = Return m).
  { rewrite selectColumns_with_Raise. split.
    - intros [pre [i [c [post [Heq [Hpos [Hr Hpre]]]]]]].
      destruct (enumerate_from_split _ _ _ _ _ _ Heq)
        as [Hi [Hc [_ Hafter]]].
      simpl in Hi. subst i. exists (length pre), c.
      split; [exact Hc|]. split; [exact Hpos|]. split; [exact Hr|].
      intros j c' Hlt Hj Hpos'.
      rewrite List.Forall_forall in Hpre. apply (Hpre (j, c')); [|exact Hpos'].
      assert (Hin : In (j, c') (enumerate_from 0 columns))
        by (apply enumerate_In, Hj).
      rewrite Heq in Hin. apply in_app_or in Hin.
      destruct Hin as [Hin | [[= Hji _] | Hin]]; [exact Hin | lia |].
      apply Hafter in Hin. lia.
    - intros [i [c [Hc [Hpos [Hr Hbefore]]]]].
      exists (enumerate_from 0 (take i columns)), i, c,
             (enumerate_from (S i) (drop (S i) columns)).
      split; [apply enumerate_from_take_drop, Hc|].
      split; [exact Hpos|]. split; [exact Hr|].
      rewrite List.Forall_forall. intros [j c'] Hin. simpl.
      apply enumerate_In in Hin.
      apply lookup_take_Some in Hin. destruct Hin as [Hj Hlt].
      apply Hbefore; assumption. }
  destruct (selectColumns_with minLocalActivityOf columns
              (enumerate_from 0 columns)) as [act|e0]; simpl.
  - split; [|discriminate]. rewrite <- Hiff. split; discriminate.
  - split; [|reflexivity]. rewrite <- Hiff. split; congruence.
Qed.

End FindActiveColumnsFacts.

(** X9.  Whether [findActiveColumns] raises, and the list it stores, do
    not depend on the dictionary it is given; and two runs for different
    timesteps leave the same dictionary in either order. *)
Theorem findActiveColumns_with_commute {T : Type} `{PyNum T}
    (helper1 helper2 : list (Column T) → nat → outcome T)
    (columns1 columns2 : list (Column T)) (t1 t2 : Z)
    (log log' : gmap Z (list nat)) :
  t1 ≠ t2 →
  (findActiveColumns_with helper1 columns1 t1 log).2
  = (findActiveColumns_with helper1 columns1 t1 log').2 ∧
  ((findActiveColumns_with helper1 columns1 t1 log).2 = None →
   (findActiveColumns_with helper1 columns1 t1 log).1 !! t1
   = (findActiveColumns_with helper1 columns1 t1 log').1 !! t1) ∧
  (findActiveColumns_with helper2 columns2 t2
     (findActiveColumns_with helper1 columns1 t1 log).1).1
  = (findActiveColumns_with helper1 columns1 t1
       (findActiveColumns_with helper2 columns2 t2 log).1).1.
Proof.
  intros Hne. unfold findActiveColumns_with.
  destruct (selectColumns_with helper1 columns1 (enumerate_from 0 columns1))
    as [a1|e1];
  destruct (selectColumns_with helper2 columns2 (enumerate_from 0 columns2))
    as [a2|e2]; simpl; rewrite ?lookup_insert_eq;
    repeat split; try reflexivity; try discriminate.
  apply insert_insert_ne. congruence.
Qed.

(** ** The pipeline on binary64 *)

(** A product with 0.0 is a zero or NaN, never above 0. *)
Lemma float_zero_mul_not_positive (b : float) :
  PrimFloat.ltb 0 (0 * b) = false.
Proof.
  rewrite FloatAxioms.ltb_spec, FloatAxioms.mul_spec.
  change (Prim2SF 0) with (S754_zero false).
  destruct (Prim2SF b) as [s|s| |s m e]; reflexivity.
Qed.

(** X10.  On binary64, whenever [findOverlap] returns normally no column
    is left with an overlap strictly above 0; [findActiveColumns] run on
    that region then stores the empty list, whatever its helpers are, and
    learning over that list changes nothing. *)
Theorem pipeline_selects_nothing (inputVector : Z → list bool)
    (helper : list (Column float) → nat → outcome float)
    (columns columns' : list (Column float)) (t : Z) (minOverlap : float)
    (log : gmap Z (list nat)) :
  findOverlap inputVector columns t minOverlap = (columns', None) →
  Forall (fun c => gtb (getOverlap c) lit_0_0 = false) columns' ∧
  findActiveColumns_with helper columns' t log = (<[t := []]> log, None) ∧
  learnAndInhibit columns' [] t = columns'.
Proof.
  intros Hrun.
  assert (Hall : Forall (fun c => synapses c = []) columns).
  { destruct (first_with_synapse columns)
      as [Hall | [pre [c [post [-> [Hpre Hc]]]]]]; [exact Hall|].
    rewrite (findOverlap_at_first_synapse inputVector pre post c t minOverlap
               Hpre Hc) in Hrun. discriminate. }
  rewrite (findOverlap_all_without_synapses inputVector _ t minOverlap Hall)
    in Hrun.
  injection Hrun as <-.
  assert (Hzero : Forall (fun c : Column float =>
                            gtb (getOverlap c) lit_0_0 = false)
                    (map (overlap_without_synapses minOverlap) columns)).
  { apply List.Forall_forall. intros c' Hin. apply in_map_iff in Hin.
    destruct Hin as [c [<- _]]. unfold overlap_without_synapses, gtb. simpl.
    destruct (PrimFloat.ltb 0 minOverlap);
      [reflexivity | apply float_zero_mul_not_positive]. }
  split; [exact Hzero|]. split; [|reflexivity].
  apply findActiveColumns_with_none_positive, Hzero.
Qed.

(** ** Learning over any list of references *)

Section LearningFacts.
Context {T : Type} `{PyNum T}.

Implicit Types (c : Column T) (columns : list (Column T)) (s : Synapse T).

(** A column is learned as many times as it is listed. *)
Lemma learnAndInhibit_lookup_count columns activeColumns t i :
  learnAndInhibit columns activeColumns t !! i
  = Nat.iter (count_occ Nat.eq_dec activeColumns i) learnColumn
      <$> columns !! i.
Proof.
  revert columns. induction activeColumns as [|a act IH]; intros columns.
  - simpl. destruct (columns !! i); reflexivity.
  - rewrite learnAndInhibit_cons, IH. simpl.
    destruct (Nat.eq_dec a i) as [->|Hne].
    + rewrite list_lookup_alter_eq. destruct (columns !! i); simpl;
        [|reflexivity].
      rewrite <- Nat.iter_succ_r. reflexivity.
    + rewrite list_lookup_alter_ne by exact Hne. reflexivity.
Qed.

Lemma synapses_iter_learnColumn n c :
  synapses (Nat.iter n learnColumn c)
  = map (Nat.iter n learnSynapse) (synapses c).
Proof.
  induction n as [|n IH]; simpl.
  - rewrite map_id. reflexivity.
  - unfold getSynapses. rewrite IH, map_map. reflexivity.
Qed.

Lemma iter_learnColumn_fields n c :
  boost (Nat.iter n learnColumn c) = boost c ∧
  overlap (Nat.iter n learnColumn c) = overlap c ∧
  cells (Nat.iter n learnColumn c) = cells c.
Proof.
  induction n as [|n [Hb [Ho Hc]]]; simpl; auto.
Qed.

Lemma iter_learnSynapse_fields n s :
  inputIndex (Nat.iter n learnSynapse s) = inputIndex s ∧
  isactive (Nat.iter n learnSynapse s) = isactive s.
Proof.
  induction n as [|n [Hi Ha]]; simpl; [auto|].
  unfold learnSynapse at 1 3. destruct (isActive _); simpl; auto.
Qed.

(** X11.  For any list of references, with repetitions or not, learning
    keeps the region's length and leaves at each position the column that
    was there after as many passes of the inner loop as the position
    occurs in the list: none for a column that is not listed, two for a
    column listed twice. *)
Theorem learnAndInhibit_counts columns activeColumns t :
  length (learnAndInhibit columns activeColumns t) = length columns ∧
  ∀ i,
    learnAndInhibit columns activeColumns t !! i
    = Nat.iter (count_occ Nat.eq_dec activeColumns i) learnColumn
        <$> columns !! i.
Proof.
  split; [apply learnAndInhibit_length|].
  intros i. apply learnAndInhibit_lookup_count.
Qed.

(** X12.  The result of learning does not depend on the order in which the
    active columns are listed. *)
Theorem learnAndInhibit_Permutation columns activeColumns activeColumns' t :
  Permutation activeColumns activeColumns' →
  learnAndInhibit columns activeColumns t
  = learnAndInhibit columns activeColumns' t.
Proof.
  intros Hperm. revert columns.
  induction Hperm as [|a l l' _ IH|a b l|l l' l'' _ IH1 _ IH2];
    intros columns.
  - reflexivity.
  - rewrite !learnAndInhibit_cons. apply IH.
  - rewrite !learnAndInhibit_cons. f_equal.
    destruct (decide (a = b)) as [->|Hne]; [reflexivity|].
    apply list_alter_alter_ne. exact Hne.
  - rewrite IH1. apply IH2.
Qed.

(** X13.  Learning changes permanences and nothing else: every column keeps
    its boost, its overlap and its cells, and its synapses keep their
    number, their input indices and their activity flags. *)
Theorem learnAndInhibit_changes_permanence_only columns activeColumns t :
  Forall2
    (fun c c' =>
       boost c' = boost c ∧ overlap c' = overlap c ∧ cells c' = cells c ∧
       Forall2 (fun s s' => inputIndex s' = inputIndex s ∧
                            isactive s' = isactive s)
         (synapses c) (synapses c'))
    columns (learnAndInhibit columns activeColumns t).
Proof.
  apply Forall2_same_length_lookup_2;
    [symmetry; apply learnAndInhibit_length|].
  intros i c c' Hc Hc'. rewrite learnAndInhibit_lookup_count, Hc in Hc'.
  simpl in Hc'. injection Hc' as <-.
  destruct (iter_learnColumn_fields
              (count_occ Nat.eq_dec activeColumns i) c) as [Hb [Ho Hcl]].
  split; [exact Hb|]. split; [exact Ho|]. split; [exact Hcl|].
  rewrite synapses_iter_learnColumn.
  induction (synapses c) as [|s ss IH]; simpl; constructor; [|exact IH].
  apply iter_learnSynapse_fields.
Qed.

End LearningFacts.

(** ** Learning and the arithmetic *)

Section LearningUnitInterval.
Context {T : Type} `{ArithLaws T}.

Implicit Types (c : Column T) (columns : list (Column T)) (s : Synapse T).

Lemma learnSynapse_in_unit_interval s :
  in_unit_interval (permanence s) →
  in_unit_interval (permanence (learnSynapse s)).
Proof.
  intros Hs. unfold learnSynapse. destruct (isActive s).
  - apply incPerm_in_unit_interval; [exact Hs | apply leb_0_inc].
  - apply decPerm_in_unit_interval; [exact Hs | apply leb_0_dec].
Qed.

Lemma iter_learnSynapse_in_unit_interval n s :
  in_unit_interval (permanence s) →
  in_unit_interval (permanence (Nat.iter n learnSynapse s)).
Proof.
  intros Hs. induction n as [|n IH]; simpl; [exact Hs|].
  apply learnSynapse_in_unit_interval, IH.
Qed.

(** X14.  If every permanence of the region is in [0, 1] before learning,
    every permanence is in [0, 1] after it, whatever list of references is
    passed; this holds for binary64 as for exact arithmetic. *)
Theorem learnAndInhibit_keeps_unit_interval columns activeColumns t :
  Forall (fun c => Forall (fun s => in_unit_interval (permanence s))
                     (synapses c)) columns →
  Forall (fun c => Forall (fun s => in_unit_interval (permanence s))
                     (synapses c))
    (learnAndInhibit columns activeColumns t).
Proof.
  intros Hall. apply Forall_lookup. intros i c' Hc'.
  rewrite learnAndInhibit_lookup_count in Hc'.
  destruct (columns !! i) as [c|] eqn:Hc; [|discriminate].
  simpl in Hc'. injection Hc' as <-.
  rewrite synapses_iter_learnColumn.
  pose proof (Forall_lookup_1 _ _ _ _ Hall Hc) as Hsyn. simpl in Hsyn.
  apply List.Forall_forall. intros s' Hin. apply in_map_iff in Hin.
  destruct Hin as [s [<- Hin]]. apply iter_learnSynapse_in_unit_interval.
  rewrite List.Forall_forall in Hsyn. apply Hsyn, Hin.
Qed.

End LearningUnitInterval.

Section LearningConnection.
Context {T : Type} `{ConnectionLaws T}.

Implicit Types (c : Column T) (columns : list (Column T)) (s : Synapse T).

(** One pass of the inner loop on a synapse. *)
Lemma learnSynapse_keeps_connection s :
  (isActive s = true → isConnnected s = true →
   isConnnected (learnSynapse s) = true) ∧
  (isActive s = false → isConnnected s = false →
   isConnnected (learnSynapse s) = false).
Proof.
  unfold learnSynapse, isConnnected, isConnnected_with, gtb, CONNECTED_PERM.
  split; intros -> Hcon.
  - unfold incPerm, gtb. simpl.
    destruct (ltb lit_1_0 (add (permanence s) PERMANENCE_INC));
      [apply connected_perm_lt_1|].
    eapply ltb_leb_trans; [exact Hcon|].
    apply add_grows; [| apply leb_0_inc].
    eapply leb_ltb_trans; [apply connected_perm_nonneg | exact Hcon].
  - unfold decPerm. simpl.
    destruct (ltb (sub (permanence s) PERMANENCE_DEC) lit_0_0).
    { apply leb_ltb_false, connected_perm_nonneg. }
    destruct (leb lit_0_0 (permanence s)) eqn:Hpos.
    + destruct (leb_number _ _ Hpos) as [_ Hnum].
      destruct (leb_number _ _ connected_perm_nonneg) as [_ Hthr].
      assert (Hle : leb (permanence s) lit_0_2 = true)
        by (apply ltb_false_leb; assumption).
      apply leb_ltb_false. eapply leb_trans; [|exact Hle].
      apply sub_shrinks; [exact Hpos | | apply leb_0_dec].
      eapply leb_trans; [exact Hle|].
      apply ltb_leb_weak, connected_perm_lt_1.
    + pose proof (sub_not_positive _ _ Hpos leb_0_dec) as Hnp.
      destruct (ltb lit_0_2 (sub (permanence s) PERMANENCE_DEC)) eqn:E;
        [|reflexivity].
      rewrite <- Hnp. symmetry.
      eapply leb_ltb_trans; [apply connected_perm_nonneg | exact E].
Qed.

(** X15.  Learning never disconnects an active synapse that is connected
    and never connects an inactive synapse that is not, however often its
    column is listed; this holds for binary64 as for exact arithmetic. *)
Theorem learnAndInhibit_keeps_connection columns activeColumns t i c c' j
    s s' :
  columns !! i = Some c →
  learnAndInhibit columns activeColumns t !! i = Some c' →
  synapses c !! j = Some s → synapses c' !! j = Some s' →
  (isActive s = true → isConnnected s = true → isConnnected s' = true) ∧
  (isActive s = false → isConnnected s = false → isConnnected s' = false).
Proof.
  intros Hc Hc' Hs Hs'.
  rewrite learnAndInhibit_lookup_count, Hc in Hc'. simpl in Hc'.
  injection Hc' as <-. rewrite synapses_iter_learnColumn in Hs'.
  change (map ?f ?l) with (f <$> l) in Hs'.
  rewrite list_lookup_fmap, Hs in Hs'. simpl in Hs'. injection Hs' as <-.
  induction (count_occ Nat.eq_dec activeColumns i) as [|n [IHa IHi]];
    simpl; [tauto|].
  destruct (iter_learnSynapse_fields n s) as [_ Hact].
  destruct (learnSynapse_keeps_connection (Nat.iter n learnSynapse s))
    as [Ha Hi].
  unfold isActive in *. rewrite Hact in Ha, Hi. split; auto.
Qed.

End LearningConnection.

Section LearningLaws.
Context {T : Type} `{StepLaws T}.

Implicit Types (c : Column T) (columns : list (Column T)) (s : Synapse T).

(** X16.  Over exact arithmetic, from a permanence in [0, 1] and with a
    step at or above 0, [incPerm] leaves the permanence between its old
    value and 1.0, and [decPerm] leaves it between 0.0 and its old
    value. *)
Theorem incPerm_decPerm_bracket s (d : T) :
  in_unit_interval (permanence s) → leb lit_0_0 d = true →
  (leb (permanence s) (permanence (incPerm s d)) = true ∧
   leb (permanence (incPerm s d)) lit_1_0 = true) ∧
  (leb lit_0_0 (permanence (decPerm s d)) = true ∧
   leb (permanence (decPerm s d)) (permanence s) = true).
Proof.
  intros [Hlo Hhi] Hd. split.
  - unfold incPerm. simpl.
    destruct (gtb (add (permanence s) d) lit_1_0) eqn:E.
    + split; [exact Hhi | apply leb_refl, number_1_0].
    + pose proof (add_step_le (permanence s) d Hd) as Hstep.
      split; [exact Hstep|].
      apply ltb_false_leb; [apply number_1_0 | | exact E].
      apply (leb_number _ _ Hstep).
  - unfold decPerm. simpl.
    destruct (ltb (sub (permanence s) d) lit_0_0) eqn:E.
    + split; [apply leb_refl, number_0_0 | exact Hlo].
    + pose proof (sub_step_le (permanence s) d Hd) as Hstep.
      split; [|exact Hstep].
      apply ltb_false_leb; [| apply number_0_0 | exact E].
      apply (leb_number _ _ Hstep).
Qed.

End LearningLaws.

(** ** NaN on binary64 *)

Lemma float_not_number_add (x d : float) :
  float_is_number x = false → float_is_number (x + d) = false.
Proof.
  rewrite !float_is_number_spec, FloatAxioms.add_spec.
  destruct (Prim2SF x); simpl; try discriminate. reflexivity.
Qed.

Lemma float_not_number_sub (x d : float) :
  float_is_number x = false → float_is_number (x - d) = false.
Proof.
  rewrite !float_is_number_spec, FloatAxioms.sub_spec.
  destruct (Prim2SF x); simpl; try discriminate. reflexivity.
Qed.

Lemma float_not_number_ltb (x y : float) :
  float_is_number x = false ∨ float_is_number y = false →
  PrimFloat.ltb x y = false.
Proof.
  intros Hnan. destruct (PrimFloat.ltb x y) eqn:E; [|reflexivity].
  destruct (@ltb_number float float_PyNum float_OrderLaws x y E) as [Hx Hy].
  simpl in Hx, Hy. destruct Hnan; congruence.
Qed.

(** X17.  On binary64, a synapse whose permanence is NaN is not connected,
    and [incPerm] and [decPerm] leave its permanence NaN: the comparisons
    that clamp do not catch it, so learning never repairs it. *)
Theorem nan_permanence_stays (s : Synapse float) (d : float) :
  float_is_number (permanence s) = false →
  isConnnected s = false ∧
  float_is_number (permanence (incPerm s d)) = false ∧
  float_is_number (permanence (decPerm s d)) = false ∧
  float_is_number (permanence (learnSynapse s)) = false ∧
  isConnnected (learnSynapse s) = false.
Proof.
  intros Hnan.
  assert (Hinc : ∀ d, float_is_number (permanence (incPerm s d)) = false).
  { intros d0. unfold incPerm, gtb. simpl.
    rewrite float_not_number_ltb
      by (right; apply float_not_number_add, Hnan).
    apply float_not_number_add, Hnan. }
  assert (Hdec : ∀ d, float_is_number (permanence (decPerm s d)) = false).
  { intros d0. unfold decPerm. simpl.
    rewrite float_not_number_ltb
      by (left; apply float_not_number_sub, Hnan).
    apply float_not_number_sub, Hnan. }
  assert (Hlearn : float_is_number (permanence (learnSynapse s)) = false).
  { unfold learnSynapse. destruct (isActive s); [apply Hinc | apply Hdec]. }
  split; [apply float_not_number_ltb; right; exact Hnan|].
  split; [apply Hinc|]. split; [apply Hdec|]. split; [exact Hlearn|].
  apply float_not_number_ltb. right. exact Hlearn.
Qed.

(** ** Selection followed by learning *)

(** X18.  Learning over the list that [findActiveColumns] stored runs the
    inner loop exactly once on every column that was selected and leaves
    every other column as it was. *)
Theorem learnAndInhibit_after_findActiveColumns {T : Type} `{PyNum T}
    (helper : list (Column T) → nat → outcome T)
    (columns : list (Column T)) (t : Z) (log log' : gmap Z (list nat))
    (act : list nat) :
  findActiveColumns_with helper columns t log = (log', None) →
  log' !! t = Some act →
  ∀ i c, columns !! i = Some c →
    learnAndInhibit columns act t !! i
    = Some (if selected_with helper columns (i, c) then learnColumn c else c).
Proof.
  unfold findActiveColumns_with. intros Hrun Hact i c Hc.
  destruct (selectColumns_with helper columns (enumerate_from 0 columns))
    as [a|e] eqn:Es; [|discriminate].
  injection Hrun as <-. rewrite lookup_insert_eq in Hact.
  injection Hact as <-.
  rewrite (selectColumns_with_Return _ _ _ _ Es).
  destruct (selected_with helper columns (i, c)) eqn:Esel.
  - apply learnAndInhibit_listed; [| |exact Hc].
    + apply filter_fst_NoDup, enumerate_from_fst_NoDup.
    + apply in_map_iff. exists (i, c). split; [reflexivity|].
      apply filter_In. split; [apply enumerate_In, Hc | exact Esel].
  - rewrite learnAndInhibit_other; [exact Hc|].
    intros Hin. apply in_map_iff in Hin. destruct Hin as [[j d] [Hj Hin]].
    simpl in Hj. subst j. apply filter_In in Hin. destruct Hin as [Hin Hd].
    apply enumerate_In in Hin. assert (d = c) by congruence. subst d.
    congruence.
Qed.

(** X19.  Connection is monotone in the permanence: a direct set to a value
    at or above the permanence of a connected synapse leaves it connected,
    and a direct set to a value at or below the permanence of an
    unconnected synapse leaves it unconnected. *)
Theorem isConnnected_monotone {T : Type} `{OrderLaws T}
    (s : Synapse T) (p : T) :
  (isConnnected s = true → leb (permanence s) p = true →
   isConnnected (setPermanence s p) = true) ∧
  (isConnnected s = false → leb p (permanence s) = true →
   isConnnected (setPermanence s p) = false).
Proof.
  unfold isConnnected, isConnnected_with, gtb. simpl. split.
  - intros Hcon Hle. eapply ltb_leb_trans; eassumption.
  - intros Hcon Hle. destruct (leb_number _ _ Hle) as [_ Hnum].
    destruct (ltb CONNECTED_PERM p) eqn:Ep; [|reflexivity].
    destruct (ltb_number _ _ Ep) as [Hthr _].
    rewrite <- Ep. apply leb_ltb_false.
    eapply leb_trans; [exact Hle|].
    apply ltb_false_leb; assumption.
Qed.

(** ** The further properties at concrete inputs *)

Lemma findOverlap_without_synapses_witness :
  Forall (fun c : Column float => synapses c = [])
    [column_with_overlap 7; Column_init] ∧
  findOverlap example_input [column_with_overlap 7; Column_init] 0%Z 0%float
  = ([column_with_overlap 0; Column_init], None).
Proof.
  assert (Hall : Forall (fun c : Column float => synapses c = [])
                   [column_with_overlap 7; Column_init])
    by (repeat constructor).
  split; [exact Hall|].
  exact (findOverlap_without_synapses example_input
           [column_with_overlap 7; Column_init] 0%Z 0%float Hall).
Defined.

Lemma findOverlap_stops_at_first_synapse_witness :
  findOverlap example_input
    ([column_with_overlap 7] ++ fresh_synapse_column
       :: [column_with_overlap 7]) 0%Z 0%float
  = ([column_with_overlap 0]
       ++ setOverlap fresh_synapse_column 0%float :: [column_with_overlap 7],
     Some AttributeError).
Proof.
  assert (Hpre : Forall (fun c : Column float => synapses c = [])
                   [column_with_overlap 7]) by (repeat constructor).
  assert (Hc : synapses fresh_synapse_column ≠ []) by discriminate.
  exact (findOverlap_stops_at_first_synapse example_input
           [column_with_overlap 7] [column_with_overlap 7]
           fresh_synapse_column 0%Z 0%float Hpre Hc).
Defined.

Lemma findActiveColumns_with_records_witness :
  ∃ act,
    <[0%Z := [0; 1; 2]]> (∅ : gmap Z (list nat)) = <[0%Z := act]> ∅ ∧
    StronglySorted lt act.
Proof.
  assert (Hrun : findActiveColumns_with (constant_helper 3)
                   scenario3_columns 0%Z ∅
                 = (<[0%Z := [0; 1; 2]]> ∅, None)) by reflexivity.
  destruct (findActiveColumns_with_records (constant_helper 3)
              scenario3_columns 0%Z ∅ (<[0%Z := [0; 1; 2]]> ∅) Hrun)
    as [act [Hlog [Hsorted _]]].
  exists act. split; [exact Hlog | exact Hsorted].
Defined.

Lemma findActiveColumns_with_skips_witness :
  findActiveColumns_with raising_helper
    [column_with_overlap 0; column_with_overlap 0] 0%Z ∅
  = (<[0%Z := []]> ∅, None).
Proof.
  apply (findActiveColumns_with_skips raising_helper). repeat constructor.
Defined.

Lemma findActiveColumns_with_commute_witness :
  (findActiveColumns_with (constant_helper 3) [column_with_overlap 1] 1%Z
     (findActiveColumns_with (constant_helper 3) scenario3_columns 0%Z ∅).1).1
  = (findActiveColumns_with (constant_helper 3) scenario3_columns 0%Z
       (findActiveColumns_with (constant_helper 3) [column_with_overlap 1]
          1%Z ∅).1).1.
Proof.
  apply (findActiveColumns_with_commute (constant_helper 3)
           (constant_helper 3) scenario3_columns [column_with_overlap 1]
           0%Z 1%Z ∅ ∅).
  discriminate.
Defined.

Lemma pipeline_selects_nothing_witness :
  findActiveColumns_with (constant_helper 0)
    [column_with_overlap 0; Column_init] 0%Z ∅
  = (<[0%Z := []]> ∅, None).
Proof.
  assert (Hrun : findOverlap example_input
                   [column_with_overlap 7; Column_init] 0%Z 0%float
                 = ([column_with_overlap 0; Column_init], None))
    by reflexivity.
  exact (proj1 (proj2 (pipeline_selects_nothing example_input
                         (constant_helper 0)
                         [column_with_overlap 7; Column_init]
                         [column_with_overlap 0; Column_init] 0%Z 0%float ∅
                         Hrun))).
Defined.

Lemma learnAndInhibit_Permutation_witness :
  learnAndInhibit [scenario4_column; scenario4_column] [0; 1] 0%Z
  = learnAndInhibit [scenario4_column; scenario4_column] [1; 0] 0%Z.
Proof.
  apply learnAndInhibit_Permutation. apply perm_swap.
Defined.

Lemma learnAndInhibit_keeps_unit_interval_witness :
  Forall (fun c : Column float =>
            Forall (fun s => in_unit_interval (permanence s)) (synapses c))
    (learnAndInhibit [scenario4_column] [0; 0] 0%Z).
Proof.
  assert (Hp : in_unit_interval 0.1%float) by (split; reflexivity).
  apply (learnAndInhibit_keeps_unit_interval [scenario4_column] [0; 0] 0%Z).
  repeat constructor; exact Hp.
Defined.

Lemma learnAndInhibit_keeps_connection_witness :
  isConnnected
    (Nat.iter 2 learnSynapse (mkSynapse true 0%Z 0.5%float)) = true.
Proof.
  assert (Hc : [half_connected_column] !! 0 = Some half_connected_column)
    by reflexivity.
  assert (Hc' : learnAndInhibit [half_connected_column] [0; 0] 0%Z !! 0
                = Some (Nat.iter 2 learnColumn half_connected_column))
    by reflexivity.
  assert (Hs : synapses half_connected_column !! 0
               = Some (mkSynapse true 0%Z 0.5%float)) by reflexivity.
  assert (Hs' : synapses (Nat.iter 2 learnColumn half_connected_column)
                  !! 0
                = Some (Nat.iter 2 learnSynapse
                          (mkSynapse true 0%Z 0.5%float)))
    by reflexivity.
  assert (Hact : isActive (mkSynapse true 0%Z 0.5%float) = true)
    by reflexivity.
  assert (Hcon : isConnnected (mkSynapse true 0%Z 0.5%float) = true)
    by reflexivity.
  exact (proj1 (learnAndInhibit_keeps_connection
                  [half_connected_column] [0; 0] 0%Z 0
                  half_connected_column _ 0 _ _ Hc Hc' Hs Hs')
           Hact Hcon).
Defined.

Lemma incPerm_decPerm_bracket_witness :
  leb (19 # 20)%Q
    (permanence (incPerm (mkSynapse true 0%Z (19 # 20)%Q) (1 # 10)%Q)) = true.
Proof.
  refine (proj1 (proj1 (incPerm_decPerm_bracket
                          (mkSynapse true 0%Z (19 # 20)%Q) (1 # 10)%Q
                          _ eq_refl))).
  split; reflexivity.
Defined.

Lemma nan_permanence_stays_witness :
  float_is_number (permanence nan_synapse) = false ∧
  isConnnected nan_synapse = false.
Proof.
  assert (Hnan : float_is_number (permanence nan_synapse) = false)
    by reflexivity.
  split; [exact Hnan|].
  exact (proj1 (nan_permanence_stays nan_synapse 0.1%float Hnan)).
Defined.

Lemma learnAndInhibit_after_findActiveColumns_witness :
  learnAndInhibit [scenario4_column] [0] 0%Z !! 0
  = Some (learnColumn scenario4_column).
Proof.
  assert (Hrun : findActiveColumns_with (constant_helper 1)
                   [scenario4_column] 0%Z ∅
                 = (<[0%Z := [0]]> ∅, None)) by reflexivity.
  assert (Hact : (<[0%Z := [0]]> (∅ : gmap Z (list nat))) !! 0%Z
                 = Some [0]) by reflexivity.
  exact (learnAndInhibit_after_findActiveColumns (constant_helper 1)
           [scenario4_column] 0%Z ∅ (<[0%Z := [0]]> ∅) [0]
           Hrun Hact 0 scenario4_column eq_refl).
Defined.
